(** * Roteamento de entregas: shortest-path engine, allocation engine, scaling

    Shallow embedding of [src/roteamento_entregas.py].

    Numbers.  Two models of Python's numbers are used.

    In the exact model a number is a rational [Q], the value [float('inf')]
    is a separate constructor, and Python's numeric [==], [<], [<=] are
    [Qeq], [Qlt], [Qle].  On ints this is exactly Python's arithmetic.  It
    carries the statements that rest on the order of numbers and on the
    monotonicity of [+] only.

    In the floating-point model (module [Flutuante]) a number is a binary64
    float of the kernel, with the rounded operations of IEEE 754.  It carries
    the statements about quotients, products and differences, which Python
    rounds.

    Control.  A [while] loop is a [Fixpoint] on a fuel counter; [None] means
    that the fuel ran out, and the top-level functions supply a fuel that is
    proved sufficient.  A Python exception is the [Exc] outcome. *)

From Stdlib Require Import QArith Lqa Floats.
From stdpp Require Import gmap strings list fin_maps.

(** ** Python values *)

(** A Python number that is either finite or [float('inf')]. *)
Inductive num : Type :=
  | Fin (q : Q)
  | Inf.

(** Python's [==] on such numbers. *)
Definition num_eq (a b : num) : Prop :=
  match a, b with
  | Fin x, Fin y => (x == y)%Q
  | Inf, Inf => True
  | _, _ => False
  end.

Inductive erro : Type :=
  | KeyError
  | IndexError
  | ValueError.

(** Outcome of a call: a returned value or a raised exception. *)
Inductive res (A : Type) : Type :=
  | Ok (a : A)
  | Exc (e : erro).
Arguments Ok {A} a.
Arguments Exc {A} e.

(** Python's [==] lifted to outcomes. *)
Definition res_eq (a b : res num) : Prop :=
  match a, b with
  | Ok x, Ok y => num_eq x y
  | Exc e, Exc e' => e = e'
  | _, _ => False
  end.

(** A frontier candidate: the tuple [(dist, no)]. *)
Abbreviation item := (Q * string)%type.

(** Python's [<] on numbers. *)
Definition Qltb (x y : Q) : bool :=
  match (x ?= y)%Q with
  | Lt => true
  | _ => false
  end.

(** Python's [<] on tuples [(dist, no)]: the first components that differ
    (by [==]) decide; strings compare by code points. *)
Definition tupla_ltb (x y : item) : bool :=
  if Qeq_bool x.1 y.1 then String.ltb x.2 y.2 else Qltb x.1 y.1.

(** Python's [==] on tuples [(dist, no)]. *)
Definition tupla_eqb (x y : item) : bool :=
  Qeq_bool x.1 y.1 && String.eqb x.2 y.2.

(** [lambda x: x[0]] compared with [<], as [min(fila, key=...)] does. *)
Definition chave_ltb (x y : item) : bool := Qltb x.1 y.1.

(** [min] of a non-empty sequence [best :: l]: the running best is replaced
    only by a strictly smaller element, so the first minimal element wins. *)
Fixpoint py_min {A : Type} (ltb : A → A → bool) (best : A) (l : list A) : A :=
  match l with
  | [] => best
  | x :: l' => py_min ltb (if ltb x best then x else best) l'
  end.

(** [list.remove(x)]: drops the first element equal to [x];
    [None] stands for the [ValueError] raised when there is none. *)
Fixpoint py_remove {A : Type} (eqb : A → A → bool) (x : A) (l : list A)
  : option (list A) :=
  match l with
  | [] => None
  | y :: l' =>
      if eqb y x then Some l'
      else match py_remove eqb x l' with
           | Some r => Some (y :: r)
           | None => None
           end
  end.

(** ** heapq

    [heapq] is the standard library's priority queue on a list.  It is
    modelled by its contract: [heappush] adds an item, [heappop] removes and
    returns the smallest item under Python's tuple order.  The list keeps
    the items in insertion order. *)

Definition heappush (heap : list item) (x : item) : list item := heap ++ [x].

(** [None] stands for the [IndexError] of popping an empty heap. *)
Definition heappop (heap : list item) : option (item * list item) :=
  match heap with
  | [] => None
  | x :: l =>
      let m := py_min tupla_ltb x l in
      match py_remove tupla_eqb m heap with
      | Some r => Some (m, r)
      | None => None
      end
  end.

(** ** Graph model *)

(** Sparse form: [Dict[str, List[Tuple[str, number]]]]. *)
Abbreviation grafo_t := (gmap string (list (string * Q))).

(** Dense form: [List[List[number]]] with its index and node list. *)
Abbreviation matriz_t := (list (list num)).

Definition cidades_destino : list string :=
  [ "Rio de Janeiro"; "Porto Alegre"; "Salvador"; "Manaus"; "Curitiba";
    "Natal"; "Goiânia"; "Fortaleza"; "Belo Horizonte"; "Vitória" ].

Definition centros_distribuicao : list string :=
  [ "Belém"; "Recife"; "Brasília"; "São Paulo"; "Florianópolis" ].

(** The distance table, in the dictionary's insertion order. *)
Definition from_distancias : list ((string * string) * Q) :=
  [ (("Belém", "Rio de Janeiro"), 3200%Q); (("Belém", "Porto Alegre"), 4000%Q);
    (("Belém", "Salvador"), 2100%Q); (("Belém", "Manaus"), 2500%Q);
    (("Belém", "Curitiba"), 3800%Q); (("Belém", "Natal"), 1900%Q);
    (("Belém", "Goiânia"), 2000%Q); (("Belém", "Fortaleza"), 1600%Q);
    (("Belém", "Belo Horizonte"), 3000%Q); (("Belém", "Vitória"), 3100%Q);
    (("Recife", "Rio de Janeiro"), 2300%Q); (("Recife", "Porto Alegre"), 3600%Q);
    (("Recife", "Salvador"), 800%Q); (("Recife", "Manaus"), 4300%Q);
    (("Recife", "Curitiba"), 3400%Q); (("Recife", "Natal"), 300%Q);
    (("Recife", "Goiânia"), 2400%Q); (("Recife", "Fortaleza"), 800%Q);
    (("Recife", "Belo Horizonte"), 2400%Q); (("Recife", "Vitória"), 2200%Q);
    (("Brasília", "Rio de Janeiro"), 1150%Q); (("Brasília", "Porto Alegre"), 2100%Q);
    (("Brasília", "Salvador"), 1500%Q); (("Brasília", "Manaus"), 3900%Q);
    (("Brasília", "Curitiba"), 1400%Q); (("Brasília", "Natal"), 2200%Q);
    (("Brasília", "Goiânia"), 210%Q); (("Brasília", "Fortaleza"), 2200%Q);
    (("Brasília", "Belo Horizonte"), 740%Q); (("Brasília", "Vitória"), 1300%Q);
    (("São Paulo", "Rio de Janeiro"), 450%Q); (("São Paulo", "Porto Alegre"), 1100%Q);
    (("São Paulo", "Salvador"), 2000%Q); (("São Paulo", "Manaus"), 4300%Q);
    (("São Paulo", "Curitiba"), 400%Q); (("São Paulo", "Natal"), 2900%Q);
    (("São Paulo", "Goiânia"), 900%Q); (("São Paulo", "Fortaleza"), 3000%Q);
    (("São Paulo", "Belo Horizonte"), 590%Q); (("São Paulo", "Vitória"), 880%Q);
    (("Florianópolis", "Rio de Janeiro"), 1100%Q); (("Florianópolis", "Porto Alegre"), 470%Q);
    (("Florianópolis", "Salvador"), 2500%Q); (("Florianópolis", "Manaus"), 4600%Q);
    (("Florianópolis", "Curitiba"), 650%Q); (("Florianópolis", "Natal"), 3200%Q);
    (("Florianópolis", "Goiânia"), 1800%Q); (("Florianópolis", "Fortaleza"), 3500%Q);
    (("Florianópolis", "Belo Horizonte"), 1500%Q); (("Florianópolis", "Vitória"), 500%Q) ].

(** [grafo[k].append(v)] on a [defaultdict(list)]. *)
Definition dd_append (grafo : grafo_t) (k : string) (v : string * Q) : grafo_t :=
  <[k := default [] (grafo !! k) ++ [v]]> grafo.

Definition gerar_lista_adjacencia : grafo_t :=
  fold_left
    (λ grafo '((c, d), distancia),
       let grafo := dd_append grafo c (d, distancia) in
       dd_append grafo d (c, distancia))
    from_distancias ∅.

(** [from_distancias[(c, d)]]; [None] stands for [KeyError]. *)
Fixpoint tabela_get (t : list ((string * string) * Q)) (c d : string) : option Q :=
  match t with
  | [] => None
  | ((c', d'), v) :: t' =>
      if String.eqb c c' && String.eqb d d' then Some v else tabela_get t' c d
  end.

(** [{node: i for i, node in enumerate(nodes)}], the enumeration starting
    at [i]. *)
Fixpoint enumerar_idx (i : nat) (nodes : list string) (idx : gmap string nat)
  : gmap string nat :=
  match nodes with
  | [] => idx
  | node :: nodes' => enumerar_idx (S i) nodes' (<[node := i]> idx)
  end.

(** [matriz[i][j] = v]; both indices are in range where it is used. *)
Definition matriz_set (matriz : matriz_t) (i j : nat) (v : num) : matriz_t :=
  match matriz !! i with
  | Some row => <[i := <[j := v]> row]> matriz
  | None => matriz
  end.

Definition gerar_matriz_adjacencia : res (matriz_t * gmap string nat * list string) :=
  let nodes := centros_distribuicao ++ cidades_destino in
  let idx := enumerar_idx 0 nodes ∅ in
  let size := length nodes in
  let matriz := replicate size (replicate size Inf) in
  let celula (acc : res matriz_t) (c d : string) : res matriz_t :=
    match acc with
    | Exc e => Exc e
    | Ok matriz =>
        match idx !! c, idx !! d, tabela_get from_distancias c d with
        | Some i, Some j, Some v => Ok (matriz_set matriz i j (Fin v))
        | _, _, _ => Exc KeyError
        end
    end in
  match
    fold_left (λ acc c, fold_left (λ acc d, celula acc c d) cidades_destino acc)
      centros_distribuicao (Ok matriz)
  with
  | Ok matriz => Ok (matriz, idx, nodes)
  | Exc e => Exc e
  end.

(** ** Dijkstra, four strategies *)

(** The [for vizinho, peso in grafo.get(no, [])] loop, pushing with [push]. *)
Definition expandir_lista (push : list item → item → list item)
    (grafo : grafo_t) (visitados : gset string) (dist_atual : Q) (no : string)
    (fr : list item) : list item :=
  fold_left
    (λ fr '(vizinho, peso),
       if bool_decide (vizinho ∈ visitados) then fr
       else push fr ((dist_atual + peso)%Q, vizinho))
    (default [] (grafo !! no)) fr.

(** The [for j, peso in enumerate(row)] loop from column [j] on;
    [nodes[j]] raises [IndexError] past the end of [nodes]. *)
Fixpoint expandir_linha (push : list item → item → list item)
    (nodes : list string) (visitados : gset string) (dist_atual : Q)
    (j : nat) (row : list num) (fr : list item) : res (list item) :=
  match row with
  | [] => Ok fr
  | Inf :: row' => expandir_linha push nodes visitados dist_atual (S j) row' fr
  | Fin peso :: row' =>
      match nodes !! j with
      | None => Exc IndexError
      | Some vizinho =>
          if bool_decide (vizinho ∈ visitados)
          then expandir_linha push nodes visitados dist_atual (S j) row' fr
          else expandir_linha push nodes visitados dist_atual (S j) row'
                 (push fr ((dist_atual + peso)%Q, vizinho))
      end
  end.

(** [fila.append(x)]. *)
Definition append (fila : list item) (x : item) : list item := fila ++ [x].

Fixpoint dijkstra_lista_heap_loop (fuel : nat) (grafo : grafo_t) (destino : string)
    (heap : list item) (visitados : gset string) : option (res num) :=
  match fuel with
  | O => None
  | S fuel =>
      match heap with
      | [] => Some (Ok Inf)
      | _ :: _ =>
          match heappop heap with
          | None => Some (Exc IndexError)
          | Some ((dist_atual, no), heap) =>
              if String.eqb no destino then Some (Ok (Fin dist_atual))
              else if bool_decide (no ∈ visitados)
              then dijkstra_lista_heap_loop fuel grafo destino heap visitados
              else
                let visitados := {[no]} ∪ visitados in
                dijkstra_lista_heap_loop fuel grafo destino
                  (expandir_lista heappush grafo visitados dist_atual no heap)
                  visitados
          end
      end
  end.

Fixpoint dijkstra_lista_simples_loop (fuel : nat) (grafo : grafo_t) (destino : string)
    (fila : list item) (visitados : gset string) : option (res num) :=
  match fuel with
  | O => None
  | S fuel =>
      match fila with
      | [] => Some (Ok Inf)
      | x :: l =>
          let '(dist_atual, no) := py_min chave_ltb x l in
          match py_remove tupla_eqb (dist_atual, no) fila with
          | None => Some (Exc ValueError)
          | Some fila =>
              if String.eqb no destino then Some (Ok (Fin dist_atual))
              else if bool_decide (no ∈ visitados)
              then dijkstra_lista_simples_loop fuel grafo destino fila visitados
              else
                let visitados := {[no]} ∪ visitados in
                dijkstra_lista_simples_loop fuel grafo destino
                  (expandir_lista append grafo visitados dist_atual no fila)
                  visitados
          end
      end
  end.

Fixpoint dijkstra_matriz_heap_loop (fuel : nat) (matriz : matriz_t)
    (idx : gmap string nat) (nodes : list string) (destino : string)
    (heap : list item) (visitados : gset string) : option (res num) :=
  match fuel with
  | O => None
  | S fuel =>
      match heap with
      | [] => Some (Ok Inf)
      | _ :: _ =>
          match heappop heap with
          | None => Some (Exc IndexError)
          | Some ((dist_atual, no), heap) =>
              if String.eqb no destino then Some (Ok (Fin dist_atual))
              else if bool_decide (no ∈ visitados)
              then dijkstra_matriz_heap_loop fuel matriz idx nodes destino heap visitados
              else
                let visitados := {[no]} ∪ visitados in
                match idx !! no with
                | None => Some (Exc KeyError)
                | Some i =>
                    match matriz !! i with
                    | None => Some (Exc IndexError)
                    | Some row =>
                        match expandir_linha heappush nodes visitados dist_atual 0 row heap with
                        | Exc e => Some (Exc e)
                        | Ok heap =>
                            dijkstra_matriz_heap_loop fuel matriz idx nodes destino
                              heap visitados
                        end
                    end
                end
          end
      end
  end.

Fixpoint dijkstra_matriz_simples_loop (fuel : nat) (matriz : matriz_t)
    (idx : gmap string nat) (nodes : list string) (destino : string)
    (fila : list item) (visitados : gset string) : option (res num) :=
  match fuel with
  | O => None
  | S fuel =>
      match fila with
      | [] => Some (Ok Inf)
      | x :: l =>
          let '(dist_atual, no) := py_min chave_ltb x l in
          match py_remove tupla_eqb (dist_atual, no) fila with
          | None => Some (Exc ValueError)
          | Some fila =>
              if String.eqb no destino then Some (Ok (Fin dist_atual))
              else if bool_decide (no ∈ visitados)
              then dijkstra_matriz_simples_loop fuel matriz idx nodes destino fila visitados
              else
                let visitados := {[no]} ∪ visitados in
                match idx !! no with
                | None => Some (Exc KeyError)
                | Some i =>
                    match matriz !! i with
                    | None => Some (Exc IndexError)
                    | Some row =>
                        match expandir_linha append nodes visitados dist_atual 0 row fila with
                        | Exc e => Some (Exc e)
                        | Ok fila =>
                            dijkstra_matriz_simples_loop fuel matriz idx nodes destino
                              fila visitados
                        end
                    end
                end
          end
      end
  end.

(** *** Fuel

    Every iteration removes one candidate, and a node is expanded at most
    once, adding at most its out-degree.  So the loop runs fewer than
    [2 + Σ (1 + out-degree)] times. *)

Definition soma_graus (graus : list nat) : nat :=
  fold_right (λ g acc, S g + acc) 0 graus.

Definition combustivel_lista (grafo : grafo_t) : nat :=
  2 + soma_graus (map (λ kv, length kv.2) (map_to_list grafo)).

Definition grau_matriz (matriz : matriz_t) (i : nat) : nat :=
  length (default [] (matriz !! i)).

Definition combustivel_matriz (matriz : matriz_t) (idx : gmap string nat) : nat :=
  2 + soma_graus (map (λ kv, grau_matriz matriz kv.2) (map_to_list idx)).

Definition dijkstra_lista_heap (grafo : grafo_t) (origem destino : string)
  : option (res num) :=
  dijkstra_lista_heap_loop (combustivel_lista grafo) grafo destino [(0%Q, origem)] ∅.

Definition dijkstra_lista_simples (grafo : grafo_t) (origem destino : string)
  : option (res num) :=
  dijkstra_lista_simples_loop (combustivel_lista grafo) grafo destino [(0%Q, origem)] ∅.

Definition dijkstra_matriz_heap (matriz : matriz_t) (idx : gmap string nat)
    (nodes : list string) (origem destino : string) : option (res num) :=
  dijkstra_matriz_heap_loop (combustivel_matriz matriz idx) matriz idx nodes destino
    [(0%Q, origem)] ∅.

Definition dijkstra_matriz_simples (matriz : matriz_t) (idx : gmap string nat)
    (nodes : list string) (origem destino : string) : option (res num) :=
  dijkstra_matriz_simples_loop (combustivel_matriz matriz idx) matriz idx nodes destino
    [(0%Q, origem)] ∅.

(** ** Scaling *)

(** [[(dest, dist * escala) for dest, dist in adj]]. *)
Definition escalar_adj (escala : Q) (adj : list (string * Q)) : list (string * Q) :=
  (λ '(dest, dist), (dest, (dist * escala)%Q)) <$> adj.

Definition escalar_grafo (grafo : grafo_t) (escala : Q) : grafo_t :=
  escalar_adj escala <$> grafo.

Definition escalar_celula (escala : Q) (d : num) : num :=
  match d with
  | Fin d => Fin (d * escala)%Q
  | Inf => Inf
  end.

Definition escalar_matriz (matriz : matriz_t) (escala : Q) : matriz_t :=
  (λ row : list num, escalar_celula escala <$> row) <$> matriz.

(** A query result times a factor; [inf] stays [inf]. *)
Definition escalar_num (r : num) (escala : Q) : num :=
  match r with
  | Fin d => Fin (d * escala)%Q
  | Inf => Inf
  end.

(** ** The search loop, once

    The four functions differ in the order [ltb] that selects the next
    candidate and in how the neighbours of a node are enumerated.  [busca]
    is their common shape, over a function [viz] that lists the pairs
    [(vizinho, peso)] the inner [for] loop visits, in order.  The proofs are
    done on [busca]; each of the four functions is shown equal to one of
    its instances. *)

(** The inner [for] loop over the pairs [ns]. *)
Definition empilhar (visitados : gset string) (dist_atual : Q)
    (ns : list (string * Q)) (fr : list item) : list item :=
  fold_left
    (λ fr '(vizinho, peso),
       if bool_decide (vizinho ∈ visitados) then fr
       else fr ++ [((dist_atual + peso)%Q, vizinho)])
    ns fr.

Fixpoint busca (ltb : item → item → bool) (e_pop : erro)
    (viz : string → res (list (string * Q)))
    (fuel : nat) (destino : string) (fr : list item) (visitados : gset string)
  : option (res num) :=
  match fuel with
  | O => None
  | S fuel =>
      match fr with
      | [] => Some (Ok Inf)
      | x :: l =>
          let m := py_min ltb x l in
          match py_remove tupla_eqb m fr with
          | None => Some (Exc e_pop)
          | Some fr =>
              if String.eqb m.2 destino then Some (Ok (Fin m.1))
              else if bool_decide (m.2 ∈ visitados)
              then busca ltb e_pop viz fuel destino fr visitados
              else
                let visitados := {[m.2]} ∪ visitados in
                match viz m.2 with
                | Exc e => Some (Exc e)
                | Ok ns =>
                    busca ltb e_pop viz fuel destino
                      (empilhar visitados m.1 ns fr) visitados
                end
          end
      end
  end.

(** Neighbours in the sparse form: [grafo.get(no, [])]. *)
Definition viz_lista (grafo : grafo_t) (no : string) : res (list (string * Q)) :=
  Ok (default [] (grafo !! no)).

(** Neighbours in a matrix row, from column [j] on: the finite cells, each
    with [nodes[j]]. *)
Fixpoint vizinhos_linha (nodes : list string) (j : nat) (row : list num)
  : res (list (string * Q)) :=
  match row with
  | [] => Ok []
  | Inf :: row' => vizinhos_linha nodes (S j) row'
  | Fin peso :: row' =>
      match nodes !! j with
      | None => Exc IndexError
      | Some vizinho =>
          match vizinhos_linha nodes (S j) row' with
          | Ok ns => Ok ((vizinho, peso) :: ns)
          | Exc e => Exc e
          end
      end
  end.

(** Neighbours in the dense form: [matriz[idx[no]]]. *)
Definition viz_matriz (matriz : matriz_t) (idx : gmap string nat)
    (nodes : list string) (no : string) : res (list (string * Q)) :=
  match idx !! no with
  | None => Exc KeyError
  | Some i =>
      match matriz !! i with
      | None => Exc IndexError
      | Some row => vizinhos_linha nodes 0 row
      end
  end.

(** ** What a shortest path is *)

(** An edge of the sparse form. *)
Definition aresta_lista (grafo : grafo_t) (u w : string) (c : Q) : Prop :=
  ∃ adj, grafo !! u = Some adj ∧ (w, c) ∈ adj.

(** An edge of the dense form: a finite cell. *)
Definition aresta_matriz (matriz : matriz_t) (idx : gmap string nat)
    (nodes : list string) (u w : string) (c : Q) : Prop :=
  ∃ i row j, idx !! u = Some i ∧ matriz !! i = Some row ∧
             row !! j = Some (Fin c) ∧ nodes !! j = Some w.

(** An edge as the loop sees it. *)
Definition aresta_viz (viz : string → res (list (string * Q)))
    (u w : string) (c : Q) : Prop :=
  ∃ ns, viz u = Ok ns ∧ (w, c) ∈ ns.

(** [caminho aresta o u L]: there is a path from [o] to [u] whose edge
    weights add up to [L] (summed from the origin on, as the loop does). *)
Inductive caminho (aresta : string → string → Q → Prop) (o : string)
  : string → Q → Prop :=
  | caminho_nil : caminho aresta o o 0%Q
  | caminho_snoc u w c L :
      caminho aresta o u L → aresta u w c → caminho aresta o w (L + c)%Q.

(** The result of a query: the length of a shortest path, or [inf] when
    there is no path. *)
Definition resultado_correto (aresta : string → string → Q → Prop)
    (o d : string) (r : num) : Prop :=
  match r with
  | Fin L => caminho aresta o d L ∧ ∀ L', caminho aresta o d L' → (L <= L')%Q
  | Inf => ∀ L', ¬ caminho aresta o d L'
  end.

(** The data model's invariants on a graph. *)
Definition pesos_nao_negativos (aresta : string → string → Q → Prop) : Prop :=
  ∀ u w c, aresta u w c → (0 <= c)%Q.

(** The dense form is indexed consistently: every index is a row, every
    finite cell has a node, and every node has an index. *)
Record matriz_ok (matriz : matriz_t) (idx : gmap string nat)
    (nodes : list string) : Prop := {
  mok_idx no i : idx !! no = Some i → i < length matriz;
  mok_col i row j c :
    matriz !! i = Some row → row !! j = Some (Fin c) → j < length nodes;
  mok_nodes no : no ∈ nodes → is_Some (idx !! no)
}.

(** ** Loop measure and loop invariant *)

(** Work left: for every node not yet expanded, one plus its out-degree.
    [graus] lists the nodes that have neighbours with a bound on their
    number. *)
Definition custo (graus : list (string * nat)) (visitados : gset string) : nat :=
  soma_graus (map snd (filter (λ p, p.1 ∉ visitados) graus)).

Definition graus_lista (grafo : grafo_t) : list (string * nat) :=
  map (λ kv, (kv.1, length kv.2)) (map_to_list grafo).

Definition graus_matriz (matriz : matriz_t) (idx : gmap string nat)
  : list (string * nat) :=
  map (λ kv, (kv.1, grau_matriz matriz kv.2)) (map_to_list idx).

(** The invariant of the [while] loop, for a query from [o] to [d]:
    every candidate is the length of a path to its node; the origin is
    expanded or still a candidate; the target is never expanded; and every
    expanded node was extracted at a distance no path beats, with each of
    its neighbours expanded or a candidate within that distance plus the
    edge. *)
Record inv_busca (viz : string → res (list (string * Q))) (bom : string → Prop)
    (o d : string) (fr : list item) (visitados : gset string) : Prop := {
  inv_cam y : y ∈ fr → caminho (aresta_viz viz) o y.2 y.1;
  inv_bom y : y ∈ fr → bom y.2;
  inv_orig : o ∈ visitados ∨ ∃ y, y ∈ fr ∧ y.2 = o ∧ (y.1 <= 0)%Q;
  inv_dest : d ∉ visitados;
  inv_vis v :
    v ∈ visitados →
    ∃ dv, (∀ L, caminho (aresta_viz viz) o v L → (dv <= L)%Q) ∧
          ∀ w c, aresta_viz viz v w c →
                 w ∈ visitados ∨ ∃ y, y ∈ fr ∧ y.2 = w ∧ (y.1 <= dv + c)%Q
}.

(** The same invariants as executable checks. *)

Definition grafo_nao_negativo (grafo : grafo_t) : bool :=
  forallb (λ kv, forallb (λ p, Qle_bool 0 p.2) kv.2) (map_to_list grafo).

Definition celula_nao_negativa (c : num) : bool :=
  match c with
  | Fin x => Qle_bool 0 x
  | Inf => true
  end.

Definition matriz_nao_negativa (matriz : matriz_t) : bool :=
  forallb (forallb celula_nao_negativa) matriz.

(** Columns of a row that hold a finite cell, counted from [j]. *)
Fixpoint colunas_finitas (j : nat) (row : list num) : list nat :=
  match row with
  | [] => []
  | Fin _ :: row' => j :: colunas_finitas (S j) row'
  | Inf :: row' => colunas_finitas (S j) row'
  end.

Definition matriz_indexada (matriz : matriz_t) (idx : gmap string nat)
    (nodes : list string) : bool :=
  forallb (λ kv, bool_decide (kv.2 < length matriz)) (map_to_list idx) &&
  forallb (λ row, forallb (λ j, bool_decide (j < length nodes))
                    (colunas_finitas 0 row)) matriz &&
  forallb (λ no, bool_decide (is_Some (idx !! no))) nodes.

(** The dense form that [gerar_matriz_adjacencia] builds. *)
Definition nodes_base : list string := centros_distribuicao ++ cidades_destino.

Definition idx_base : gmap string nat := enumerar_idx 0 nodes_base ∅.

Definition matriz_base : matriz_t :=
  match gerar_matriz_adjacencia with
  | Ok (matriz, _, _) => matriz
  | Exc _ => []
  end.

(** ** Ties in the frontier *)

(** Selection by [ltb] resolves ties on the distance by the node identifier:
    the selected candidate has the least identifier among the candidates at
    its distance. *)
Definition desempate_por_no (ltb : item → item → bool) : Prop :=
  ∀ x l y, y ∈ x :: l → (y.1 == (py_min ltb x l).1)%Q →
           String.leb (py_min ltb x l).2 y.2 = true.

(** Selection by [ltb] resolves ties on the distance by position: the
    selected candidate is the first one of least distance. *)
Definition desempate_por_posicao (ltb : item → item → bool) : Prop :=
  ∀ x l, ∃ l1 l2, x :: l = l1 ++ py_min ltb x l :: l2 ∧
                  (∀ y, y ∈ l1 → ((py_min ltb x l).1 < y.1)%Q) ∧
                  (∀ y, y ∈ l2 → ((py_min ltb x l).1 <= y.1)%Q).

(** A three-node graph: a → t (1), a → c (5), c → t (1). *)
Definition grafo_tres : grafo_t :=
  <["a" := [("t", 1%Q); ("c", 5%Q)]]> (<["c" := [("t", 1%Q)]]> ∅).

(** ** Allocation engine *)

Record Entrega : Type := {
  destino : string;
  peso : Z;
  prazo : Z
}.

Record Caminhao : Type := {
  id : Z;
  capacidade : Z;
  horas_disponiveis : Q
}.

(** Truck objects are mutable and shared by reference: [caminhoes] is a
    list of references, and the store gives the current state of the object
    behind each reference. *)
Abbreviation ref := nat (only parsing).
Abbreviation armazem := (nat → Caminhao) (only parsing).

Definition gravar (σ : armazem) (cam : ref) (c : Caminhao) : armazem :=
  λ cam', if Nat.eqb cam' cam then c else σ cam'.

(** A route leg [(centro, destino, km)]. *)
Abbreviation perna := (string * string * Q)%type.

(** The running best [(caminhao, centro, distancia)]; [None] is the initial
    [(None, None, float('inf'))]. *)
Abbreviation melhor_t := (option (ref * string * Q)).

(** [sorted(entregas, key=lambda x: x.prazo)]: a stable sort, modelled by
    insertion; an element goes before the first one whose deadline is not
    smaller. *)
Fixpoint inserir_por_prazo (e : Entrega) (l : list Entrega) : list Entrega :=
  match l with
  | [] => [e]
  | x :: l' =>
      if Z.leb (prazo e) (prazo x) then e :: l else x :: inserir_por_prazo e l'
  end.

Definition sorted_por_prazo (entregas : list Entrega) : list Entrega :=
  fold_right inserir_por_prazo [] entregas.

(** The fixed speed of 50 km/h. *)
Definition horas_de (distancia : Q) : Q := (distancia / 50)%Q.

(** The three conditions under which a truck takes a delivery over
    [distancia]. *)
Definition cabe (cam : Caminhao) (entrega : Entrega) (distancia : Q) : bool :=
  let horas_viagem := horas_de distancia in
  Z.leb (peso entrega) (capacidade cam) &&
  Qle_bool horas_viagem (horas_disponiveis cam) &&
  Qle_bool horas_viagem (inject_Z (prazo entrega)).

(** [distancia < melhor[2]]. *)
Definition melhora (distancia : Q) (melhor : melhor_t) : bool :=
  match melhor with
  | Some (_, _, d) => Qltb distancia d
  | None => true
  end.

(** The inner [for cam in caminhoes] loop. *)
Definition testar_caminhoes (σ : armazem) (entrega : Entrega) (centro : string)
    (distancia : Q) (caminhoes : list ref) (melhor : melhor_t) : melhor_t :=
  fold_left
    (λ melhor cam,
       if cabe (σ cam) entrega distancia
       then if melhora distancia melhor
            then Some (cam, centro, distancia)
            else melhor
       else melhor)
    caminhoes melhor.

(** The outer [for centro in centros] loop. *)
Definition escolher (σ : armazem) (entrega : Entrega) (caminhoes : list ref)
    (centros : list string) (buscar : string → string → num) : melhor_t :=
  fold_left
    (λ melhor centro,
       match buscar centro (destino entrega) with
       | Inf => melhor
       | Fin distancia =>
           testar_caminhoes σ entrega centro distancia caminhoes melhor
       end)
    centros None.

(** The state of a run: the truck objects, [rotas], [nao_alocadas]. *)
Record estado : Type := {
  est_armazem : armazem;
  est_rotas : gmap Z (list perna);
  est_nao_alocadas : list Entrega
}.

(** The mutation of the selected truck. *)
Definition debitar (σ : armazem) (entrega : Entrega) (melhor : melhor_t) : armazem :=
  match melhor with
  | Some (cam_sel, _, dist_sel) =>
      gravar σ cam_sel
        {| id := id (σ cam_sel);
           capacidade := capacidade (σ cam_sel) - peso entrega;
           horas_disponiveis := (horas_disponiveis (σ cam_sel) - horas_de dist_sel)%Q |}
  | None => σ
  end.

(** The [if cam_sel: ... else: ...] at the end of an iteration.
    [rotas[cam_sel.id]] is always present (see [rotas_tem_chave]). *)
Definition aplicar (est : estado) (entrega : Entrega) (melhor : melhor_t) : estado :=
  match melhor with
  | Some (cam_sel, centro_sel, dist_sel) =>
      {| est_armazem := debitar (est_armazem est) entrega melhor;
         est_rotas :=
           alter (λ l, l ++ [(centro_sel, destino entrega, dist_sel)])
                 (id (est_armazem est cam_sel)) (est_rotas est);
         est_nao_alocadas := est_nao_alocadas est |}
  | None =>
      {| est_armazem := est_armazem est;
         est_rotas := est_rotas est;
         est_nao_alocadas := est_nao_alocadas est ++ [entrega] |}
  end.

(** One iteration of [for entrega in sorted(...)]. *)
Definition passo (caminhoes : list ref) (centros : list string)
    (buscar : string → string → num) (est : estado) (entrega : Entrega) : estado :=
  aplicar est entrega (escolher (est_armazem est) entrega caminhoes centros buscar).

(** [{c.id: [] for c in caminhoes}]. *)
Definition rotas_vazias (σ : armazem) (caminhoes : list ref) : gmap Z (list perna) :=
  fold_left (λ rotas cam, <[id (σ cam) := []]> rotas) caminhoes ∅.

(** The state before the first iteration. *)
Definition estado_inicial (σ : armazem) (caminhoes : list ref) : estado :=
  {| est_armazem := σ;
     est_rotas := rotas_vazias σ caminhoes;
     est_nao_alocadas := [] |}.

(** The loop over a list of deliveries, in the order given. *)
Definition processar (caminhoes : list ref) (centros : list string)
    (buscar : string → string → num) (entregas : list Entrega) (est : estado)
  : estado :=
  fold_left (passo caminhoes centros buscar) entregas est.

Definition planejar_rotas (entregas : list Entrega) (caminhoes : list ref)
    (centros : list string) (buscar : string → string → num) (σ : armazem)
  : estado :=
  processar caminhoes centros buscar (sorted_por_prazo entregas)
    (estado_inicial σ caminhoes).

(** *** The record of a run

    [rotas] keeps legs, not deliveries.  To say which delivery went where,
    [decisoes] lists, for each delivery in the order processed, the
    combination selected for it on the store as it was at that moment. *)
Fixpoint decisoes (caminhoes : list ref) (centros : list string)
    (buscar : string → string → num) (entregas : list Entrega) (σ : armazem)
  : list (Entrega * melhor_t) :=
  match entregas with
  | [] => []
  | e :: entregas' =>
      let m := escolher σ e caminhoes centros buscar in
      (e, m) :: decisoes caminhoes centros buscar entregas' (debitar σ e m)
  end.

(** The legs of the deliveries assigned to the truck [cam], in order. *)
Definition pernas_de (cam : ref) (ds : list (Entrega * melhor_t)) : list perna :=
  omap (λ '(e, m), match m with
                   | Some (cam', centro, dist) =>
                       if Nat.eqb cam' cam then Some (centro, destino e, dist)
                       else None
                   | None => None
                   end) ds.

(** Deliveries assigned to some truck, and deliveries assigned to none. *)
Definition alocadas (ds : list (Entrega * melhor_t)) : list Entrega :=
  omap (λ '(e, m), match m with Some _ => Some e | None => None end) ds.

Definition recusadas (ds : list (Entrega * melhor_t)) : list Entrega :=
  omap (λ '(e, m), match m with Some _ => None | None => Some e end) ds.

(** Total number of legs in [rotas]. *)
Definition total_pernas (rotas : gmap Z (list perna)) : nat :=
  map_fold (λ _ l acc, length l + acc) 0 rotas.

(** Combinations in the order the loops visit them: centres outer, trucks
    inner. *)
Definition combinacoes (centros : list string) (caminhoes : list ref)
  : list (string * ref) :=
  centro ← centros; (λ cam, (centro, cam)) <$> caminhoes.

(** The distance at which a combination is accepted, if it is. *)
Definition aceita (σ : armazem) (entrega : Entrega)
    (buscar : string → string → num) (c : string * ref) : option Q :=
  match buscar c.1 (destino entrega) with
  | Inf => None
  | Fin distancia => if cabe (σ c.2) entrega distancia then Some distancia else None
  end.

(** Truck identifiers are unique among the trucks of the fleet. *)
Definition ids_unicos (σ : armazem) (caminhoes : list ref) : Prop :=
  ∀ c1 c2, c1 ∈ caminhoes → c2 ∈ caminhoes → id (σ c1) = id (σ c2) → c1 = c2.


(** One step of the two nested loops, seen as one scan of the
    combinations. *)
Definition examinar (σ : armazem) (e : Entrega) (buscar : string → string → num)
    (melhor : melhor_t) (c : string * ref) : melhor_t :=
  match aceita σ e buscar c with
  | Some d => if melhora d melhor then Some (c.2, c.1, d) else melhor
  | None => melhor
  end.

(** The scan keeps the first accepted combination of least distance. *)
Definition primeira_minima (σ : armazem) (e : Entrega)
    (buscar : string → string → num) (l : list (string * ref))
    (melhor : melhor_t) : Prop :=
  match melhor with
  | None => ∀ c, c ∈ l → aceita σ e buscar c = None
  | Some (cam, centro, d) =>
      ∃ antes depois,
        l = antes ++ (centro, cam) :: depois ∧
        aceita σ e buscar (centro, cam) = Some d ∧
        (∀ c d', c ∈ antes → aceita σ e buscar c = Some d' → (d < d')%Q) ∧
        (∀ c d', c ∈ depois → aceita σ e buscar c = Some d' → (d <= d')%Q)
  end.

(** [rotas[cam_sel.id]] never raises: every truck of the fleet has its key
    in [rotas]. *)
Definition rotas_tem_chave (caminhoes : list ref) (est : estado) : Prop :=
  ∀ cam, cam ∈ caminhoes → is_Some (est_rotas est !! id (est_armazem est cam)).


(** The oracle of [main]: [partial(dijkstra_lista_heap, grafo)] on the graph
    of [gerar_lista_adjacencia].  On that graph the query always returns a
    number; the other outcomes are mapped to [inf] only to make the function
    total. *)
Definition buscar_principal (origem destino : string) : num :=
  match dijkstra_lista_heap gerar_lista_adjacencia origem destino with
  | Some (Ok r) => r
  | _ => Inf
  end.

(** A small fleet and workload: one truck that can carry only one of two
    deliveries of 100 kg. *)
Definition frota_exemplo : armazem :=
  λ _, {| id := 7; capacidade := 150; horas_disponiveis := 40 |}.

Definition entregas_exemplo : list Entrega :=
  [ {| destino := "Rio de Janeiro"; peso := 100; prazo := 20 |};
    {| destino := "Curitiba"; peso := 100; prazo := 10 |} ].

(** ** Scaling, on the object store

    [escalar_grafo] and [escalar_matriz] receive references to mutable
    objects: a [dict] whose values are lists, a list whose items are lists.
    To state that they leave their input alone, the same functions are
    written over a store of objects.  A [dict] keeps its items in insertion
    order. *)

Inductive objeto : Type :=
  | OLista (adj : list (string * Q))
  | OLinha (row : list num)
  | ODict (itens : list (string * nat))
  | OMatriz (linhas : list nat).

Abbreviation memoria := (gmap nat objeto).

(** A new object at an unused address. *)
Definition alocar (h : memoria) (o : objeto) : memoria * nat :=
  let l := fresh (dom h) in (<[l := o]> h, l).

(** The dictionary comprehension over [grafo.items()]: one new list per
    item.  [None]: a reference that is not a list, which Python's typing of
    the argument excludes. *)
Fixpoint copiar_listas (h : memoria) (escala : Q) (itens : list (string * nat))
  : option (memoria * list (string * nat)) :=
  match itens with
  | [] => Some (h, [])
  | (centro, l) :: itens' =>
      match h !! l with
      | Some (OLista adj) =>
          let '(h1, l') := alocar h (OLista (escalar_adj escala adj)) in
          match copiar_listas h1 escala itens' with
          | Some (h2, r) => Some (h2, (centro, l') :: r)
          | None => None
          end
      | _ => None
      end
  end.

Definition escalar_grafo_mem (h : memoria) (grafo : nat) (escala : Q)
  : option (memoria * nat) :=
  match h !! grafo with
  | Some (ODict itens) =>
      match copiar_listas h escala itens with
      | Some (h1, itens') => Some (alocar h1 (ODict itens'))
      | None => None
      end
  | _ => None
  end.

(** The list comprehension over the rows: one new list per row. *)
Fixpoint copiar_linhas (h : memoria) (escala : Q) (linhas : list nat)
  : option (memoria * list nat) :=
  match linhas with
  | [] => Some (h, [])
  | l :: linhas' =>
      match h !! l with
      | Some (OLinha row) =>
          let '(h1, l') := alocar h (OLinha (escalar_celula escala <$> row)) in
          match copiar_linhas h1 escala linhas' with
          | Some (h2, r) => Some (h2, l' :: r)
          | None => None
          end
      | _ => None
      end
  end.

Definition escalar_matriz_mem (h : memoria) (matriz : nat) (escala : Q)
  : option (memoria * nat) :=
  match h !! matriz with
  | Some (OMatriz linhas) =>
      match copiar_linhas h escala linhas with
      | Some (h1, linhas') => Some (alocar h1 (OMatriz linhas'))
      | None => None
      end
  | _ => None
  end.

(** The value a reference denotes in a store. *)
Definition ler_lista (h : memoria) (l : nat) : option (list (string * Q)) :=
  match h !! l with
  | Some (OLista adj) => Some adj
  | _ => None
  end.

Definition ler_linha (h : memoria) (l : nat) : option (list num) :=
  match h !! l with
  | Some (OLinha row) => Some row
  | _ => None
  end.

Definition ler_itens (h : memoria) (itens : list (string * nat))
  : option (list (string * list (string * Q))) :=
  mapM (λ '(centro, l), adj ← ler_lista h l; Some (centro, adj)) itens.

Definition ler_grafo (h : memoria) (grafo : nat) : option grafo_t :=
  match h !! grafo with
  | Some (ODict itens) => list_to_map <$> ler_itens h itens
  | _ => None
  end.

Definition ler_matriz (h : memoria) (matriz : nat) : option matriz_t :=
  match h !! matriz with
  | Some (OMatriz linhas) => mapM (ler_linha h) linhas
  | _ => None
  end.

(** A store with the graph a → t (1), a → c (5), c → t (1) at address 2 and
    a 2 × 2 matrix at address 5. *)
Definition memoria_exemplo : memoria :=
  list_to_map
    [ (0, OLista [("t", 1%Q); ("c", 5%Q)]);
      (1, OLista [("t", 1%Q)]);
      (2, ODict [("a", 0); ("c", 1)]);
      (3, OLinha [Inf; Fin 3]);
      (4, OLinha [Inf; Inf]);
      (5, OMatriz [3; 4]) ].
(** ** Runs in floating point

    The functions that divide or multiply ([planejar_rotas],
    [escalar_grafo]) produce Python floats, and a float operation rounds.
    In this module a Python float is a binary64 float of the kernel
    ([PrimFloat.float], the IEEE 754 double that CPython uses), with its
    rounded operations and its comparisons.  A Python int that meets a float
    in an operation is converted to a float; the conversion is exact for
    ints of magnitude up to [2^53], so such an int is given here as the
    float it converts to.  Python compares an int with a float by their exact
    values, without converting ([float_leb_int]). *)
Module Flutuante.

(** The float of a Python int that a float represents exactly. *)
Definition float_de_int (z : Z) : float :=
  match z with
  | Z0 => 0%float
  | Zpos p => of_uint63 (Uint63Axioms.of_Z (Zpos p))
  | Zneg p => (- of_uint63 (Uint63Axioms.of_Z (Zpos p)))%float
  end.


(** Python's [x <= n] for a float [x] and an int [n]: the exact values are
    compared; [inf] is above and [-inf] below every int, [nan] compares
    false. *)
Definition float_leb_int (x : float) (n : Z) : bool :=
  match Prim2SF x with
  | S754_zero _ => (0 <=? n)%Z
  | S754_finite s m e =>
      if (0 <=? e)%Z then (cond_Zopp s (Zpos m) * 2 ^ e <=? n)%Z
      else (cond_Zopp s (Zpos m) <=? n * 2 ^ (- e))%Z
  | S754_infinity s => s
  | S754_nan => false
  end.

(** *** The sparse graph and one strategy *)

Abbreviation item := (float * string)%type.
Abbreviation grafo_t := (gmap string (list (string * float))).

(** Python's [<] and [==] on tuples [(dist, no)]. *)
Definition tupla_ltb (x y : item) : bool :=
  if (x.1 =? y.1)%float then String.ltb x.2 y.2 else (x.1 <? y.1)%float.

Definition tupla_eqb (x y : item) : bool :=
  (x.1 =? y.1)%float && String.eqb x.2 y.2.

(** [heapq] by its contract, as in the exact model. *)
Definition heappush (heap : list item) (x : item) : list item := heap ++ [x].

Definition heappop (heap : list item) : option (item * list item) :=
  match heap with
  | [] => None
  | x :: l =>
      let m := py_min tupla_ltb x l in
      match py_remove tupla_eqb m heap with
      | Some r => Some (m, r)
      | None => None
      end
  end.

Definition dd_append (grafo : grafo_t) (k : string) (v : string * float) : grafo_t :=
  <[k := default [] (grafo !! k) ++ [v]]> grafo.

(** The table holds ints; they enter float sums as the floats they convert
    to. *)
Definition gerar_lista_adjacencia : grafo_t :=
  fold_left
    (λ grafo '((c, d), distancia),
       let grafo := dd_append grafo c (d, float_de_int (Qnum distancia)) in
       dd_append grafo d (c, float_de_int (Qnum distancia)))
    from_distancias ∅.

Definition expandir_lista (grafo : grafo_t) (visitados : gset string)
    (dist_atual : float) (no : string) (heap : list item) : list item :=
  fold_left
    (λ heap '(vizinho, peso),
       if bool_decide (vizinho ∈ visitados) then heap
       else heappush heap ((dist_atual + peso)%float, vizinho))
    (default [] (grafo !! no)) heap.

Fixpoint dijkstra_lista_heap_loop (fuel : nat) (grafo : grafo_t) (destino : string)
    (heap : list item) (visitados : gset string) : option (res float) :=
  match fuel with
  | O => None
  | S fuel =>
      match heap with
      | [] => Some (Ok infinity)
      | _ :: _ =>
          match heappop heap with
          | None => Some (Exc IndexError)
          | Some ((dist_atual, no), heap) =>
              if String.eqb no destino then Some (Ok dist_atual)
              else if bool_decide (no ∈ visitados)
              then dijkstra_lista_heap_loop fuel grafo destino heap visitados
              else
                let visitados := {[no]} ∪ visitados in
                dijkstra_lista_heap_loop fuel grafo destino
                  (expandir_lista grafo visitados dist_atual no heap) visitados
          end
      end
  end.

(** The fuel of the exact model: the bound counts iterations and does not
    depend on the weights. *)
Definition combustivel_lista (grafo : grafo_t) : nat :=
  2 + soma_graus (map (λ kv, length kv.2) (map_to_list grafo)).

Definition dijkstra_lista_heap (grafo : grafo_t) (origem destino : string)
  : option (res float) :=
  dijkstra_lista_heap_loop (combustivel_lista grafo) grafo destino
    [(0%float, origem)] ∅.

(** [[(dest, dist * escala) for dest, dist in adj]], the product rounded. *)
Definition escalar_grafo (grafo : grafo_t) (escala : float) : grafo_t :=
  (λ adj : list (string * float),
     (λ '(dest, dist), (dest, (dist * escala)%float)) <$> adj) <$> grafo.

(** *** The allocation engine *)

Record Caminhao : Type := {
  id : Z;
  capacidade : Z;
  horas_disponiveis : float
}.

Abbreviation armazem := (nat → Caminhao) (only parsing).

Definition gravar (σ : armazem) (cam : ref) (c : Caminhao) : armazem :=
  λ cam', if Nat.eqb cam' cam then c else σ cam'.

Abbreviation perna := (string * string * float)%type.

(** The running best [(caminhao, centro, distancia)], initially
    [(None, None, float('inf'))]. *)
Abbreviation melhor_t := (option (ref * string) * float)%type.

(** [distancia / 50], rounded. *)
Definition horas_de (distancia : float) : float := (distancia / 50)%float.

Definition cabe (cam : Caminhao) (entrega : Entrega) (distancia : float) : bool :=
  let horas_viagem := horas_de distancia in
  Z.leb (peso entrega) (capacidade cam) &&
  (horas_viagem <=? horas_disponiveis cam)%float &&
  float_leb_int horas_viagem (prazo entrega).

Definition testar_caminhoes (σ : armazem) (entrega : Entrega) (centro : string)
    (distancia : float) (caminhoes : list ref) (melhor : melhor_t) : melhor_t :=
  fold_left
    (λ melhor cam,
       if cabe (σ cam) entrega distancia
       then if (distancia <? melhor.2)%float
            then (Some (cam, centro), distancia)
            else melhor
       else melhor)
    caminhoes melhor.

Definition escolher (σ : armazem) (entrega : Entrega) (caminhoes : list ref)
    (centros : list string) (buscar : string → string → float) : melhor_t :=
  fold_left
    (λ melhor centro,
       let distancia := buscar centro (destino entrega) in
       if (distancia =? infinity)%float then melhor
       else testar_caminhoes σ entrega centro distancia caminhoes melhor)
    centros (None, infinity).

Record estado : Type := {
  est_armazem : armazem;
  est_rotas : gmap Z (list perna);
  est_nao_alocadas : list Entrega
}.

(** [cam_sel.capacidade -= entrega.peso] and
    [cam_sel.horas_disponiveis -= dist_sel / 50]. *)
Definition debitar (σ : armazem) (entrega : Entrega) (melhor : melhor_t) : armazem :=
  match melhor.1 with
  | Some (cam_sel, _) =>
      gravar σ cam_sel
        {| id := id (σ cam_sel);
           capacidade := capacidade (σ cam_sel) - peso entrega;
           horas_disponiveis :=
             (horas_disponiveis (σ cam_sel) - horas_de melhor.2)%float |}
  | None => σ
  end.

Definition aplicar (est : estado) (entrega : Entrega) (melhor : melhor_t) : estado :=
  match melhor.1 with
  | Some (cam_sel, centro_sel) =>
      {| est_armazem := debitar (est_armazem est) entrega melhor;
         est_rotas :=
           alter (λ l, l ++ [(centro_sel, destino entrega, melhor.2)])
                 (id (est_armazem est cam_sel)) (est_rotas est);
         est_nao_alocadas := est_nao_alocadas est |}
  | None =>
      {| est_armazem := est_armazem est;
         est_rotas := est_rotas est;
         est_nao_alocadas := est_nao_alocadas est ++ [entrega] |}
  end.

Definition passo (caminhoes : list ref) (centros : list string)
    (buscar : string → string → float) (est : estado) (entrega : Entrega) : estado :=
  aplicar est entrega (escolher (est_armazem est) entrega caminhoes centros buscar).

Definition rotas_vazias (σ : armazem) (caminhoes : list ref) : gmap Z (list perna) :=
  fold_left (λ rotas cam, <[id (σ cam) := []]> rotas) caminhoes ∅.

Definition estado_inicial (σ : armazem) (caminhoes : list ref) : estado :=
  {| est_armazem := σ;
     est_rotas := rotas_vazias σ caminhoes;
     est_nao_alocadas := [] |}.

Definition processar (caminhoes : list ref) (centros : list string)
    (buscar : string → string → float) (entregas : list Entrega) (est : estado)
  : estado :=
  fold_left (passo caminhoes centros buscar) entregas est.

Definition planejar_rotas (entregas : list Entrega) (caminhoes : list ref)
    (centros : list string) (buscar : string → string → float) (σ : armazem)
  : estado :=
  processar caminhoes centros buscar (sorted_por_prazo entregas)
    (estado_inicial σ caminhoes).

(** The record of a run: for each delivery, in the order processed, what
    was selected for it on the store as it was at that moment. *)
Fixpoint decisoes (caminhoes : list ref) (centros : list string)
    (buscar : string → string → float) (entregas : list Entrega) (σ : armazem)
  : list (Entrega * melhor_t) :=
  match entregas with
  | [] => []
  | e :: entregas' =>
      let m := escolher σ e caminhoes centros buscar in
      (e, m) :: decisoes caminhoes centros buscar entregas' (debitar σ e m)
  end.


(** The legs of the deliveries assigned to the truck [cam], in order. *)
Definition pernas_de (cam : ref) (ds : list (Entrega * melhor_t)) : list perna :=
  omap (λ '(e, m), match m.1 with
                   | Some (cam', centro) =>
                       if Nat.eqb cam' cam then Some (centro, destino e, m.2)
                       else None
                   | None => None
                   end) ds.

(** Truck identifiers are unique among the trucks of the fleet. *)
Definition ids_unicos (σ : armazem) (caminhoes : list ref) : Prop :=
  ∀ c1 c2, c1 ∈ caminhoes → c2 ∈ caminhoes → id (σ c1) = id (σ c2) → c1 = c2.




(** The oracle of [main], [partial(dijkstra_lista_heap, grafo)]; on that
    graph the query always returns a number. *)
Definition buscar_principal (origem destino : string) : float :=
  match dijkstra_lista_heap gerar_lista_adjacencia origem destino with
  | Some (Ok r) => r
  | _ => infinity
  end.

End Flutuante.

(** ** Integer inputs

    Python ints are exact and unbounded, and [+], [*] and the comparisons
    of ints give ints: on graphs whose weights are ints, scaled by an int,
    the exact model computes what the program computes. *)







(** * Properties *)

(** ** Comparisons *)

Lemma Qltb_lt (x y : Q) : Qltb x y = true ↔ (x < y)%Q.
Proof.
  unfold Qltb. rewrite Qlt_alt. destruct (x ?= y)%Q; split; congruence.
Qed.

Lemma Qltb_ge (x y : Q) : Qltb x y = false ↔ (y <= x)%Q.
Proof.
  rewrite <- not_true_iff_false, Qltb_lt. split; intros H; lra.
Qed.

Lemma string_compare_refl (s : string) : String.compare s s = Eq.
Proof.
  induction s as [|a s IH]; simpl; [done|].
  unfold Ascii.compare. by rewrite N.compare_refl.
Qed.

Lemma string_compare_lt_trans (s1 s2 s3 : string) :
  String.compare s1 s2 = Lt → String.compare s2 s3 = Lt → String.compare s1 s3 = Lt.
Proof.
  revert s2 s3. induction s1 as [|a s1 IH]; intros [|b s2] [|c s3]; simpl; try done.
  unfold Ascii.compare.
  destruct (N.compare_spec (Ascii.N_of_ascii a) (Ascii.N_of_ascii b)) as [Hab|Hab|Hab];
    destruct (N.compare_spec (Ascii.N_of_ascii b) (Ascii.N_of_ascii c)) as [Hbc|Hbc|Hbc];
    try done; intros H1 H2.
  - rewrite Hab, Hbc, N.compare_refl. eauto.
  - rewrite Hab. by apply N.compare_lt_iff in Hbc as ->.
  - rewrite <- Hbc. by apply N.compare_lt_iff in Hab as ->.
  - assert (Ascii.N_of_ascii a < Ascii.N_of_ascii c)%N as Hac by lia.
    by apply N.compare_lt_iff in Hac as ->.
Qed.

Lemma string_ltb_trans (s1 s2 s3 : string) :
  String.ltb s1 s2 = true → String.ltb s2 s3 = true → String.ltb s1 s3 = true.
Proof.
  unfold String.ltb. intros H1 H2.
  rewrite (string_compare_lt_trans s1 s2 s3); [done| |].
  - by destruct (String.compare s1 s2).
  - by destruct (String.compare s2 s3).
Qed.

Lemma string_ltb_irrefl (s : string) : String.ltb s s = false.
Proof. unfold String.ltb. by rewrite string_compare_refl. Qed.

(** Negative transitivity: the order on strings is total. *)
Lemma string_ltb_neg (s1 s2 s3 : string) :
  String.ltb s1 s2 = true → String.ltb s3 s2 = false → String.ltb s1 s3 = true.
Proof.
  unfold String.ltb. intros H1 H2.
  destruct (String.compare s3 s2) eqn:H32; [|done|].
  - apply String.compare_eq_iff in H32 as ->. done.
  - rewrite String.compare_antisym in H32.
    destruct (String.compare s2 s3) eqn:H23; try done.
    rewrite (string_compare_lt_trans s1 s2 s3); [done| |done].
    by destruct (String.compare s1 s2).
Qed.

Lemma tupla_eqb_refl (x : item) : tupla_eqb x x = true.
Proof.
  unfold tupla_eqb. by rewrite Qeq_bool_refl, String.eqb_refl.
Qed.

(** What the proofs need of the order that selects the next candidate:
    it is a strict weak order, it refines the order on distances, and two
    candidates it separates are not [==]. *)
Record ordem_fronteira (ltb : item → item → bool) : Prop := {
  of_trans x y z : ltb x y = true → ltb y z = true → ltb x z = true;
  of_neg x y z : ltb x y = true → ltb z y = false → ltb x z = true;
  of_le x y : ltb x y = true → (x.1 <= y.1)%Q;
  of_dist x y : (x.1 < y.1)%Q → ltb x y = true;
  of_neq x y : ltb x y = true → tupla_eqb y x = false
}.

Lemma chave_ordem : ordem_fronteira chave_ltb.
Proof.
  split; unfold chave_ltb; intros *.
  - rewrite !Qltb_lt. lra.
  - rewrite !Qltb_lt, Qltb_ge. lra.
  - rewrite Qltb_lt. lra.
  - by rewrite Qltb_lt.
  - rewrite Qltb_lt. intros H. unfold tupla_eqb.
    destruct (Qeq_bool y.1 x.1) eqn:E; [|done].
    apply Qeq_bool_iff in E. lra.
Qed.

Local Ltac qcase a b :=
  let E := fresh "E" in
  destruct (Qeq_bool a b) eqn:E;
  [apply Qeq_bool_iff in E | apply Qeq_bool_neq in E].

Lemma tupla_ordem : ordem_fronteira tupla_ltb.
Proof.
  split; unfold tupla_ltb; intros *.
  - qcase x.1 y.1; qcase y.1 z.1; qcase x.1 z.1;
      rewrite ?Qltb_lt; try (intros; lra); try (intros; exfalso; lra).
    apply string_ltb_trans.
  - qcase x.1 y.1; qcase z.1 y.1; qcase x.1 z.1;
      rewrite ?Qltb_lt, ?Qltb_ge; try (intros; lra); try (intros; exfalso; lra).
    apply string_ltb_neg.
  - qcase x.1 y.1; rewrite ?Qltb_lt; intros; lra.
  - intros H. qcase x.1 y.1; [lra | by apply Qltb_lt].
  - unfold tupla_eqb. rewrite (Qeq_bool_comm y.1 x.1).
    destruct (Qeq_bool x.1 y.1) eqn:Exy; [|done].
    intros H. simpl. destruct (String.eqb y.2 x.2) eqn:E; [|done].
    apply String.eqb_eq in E. rewrite E, string_ltb_irrefl in H. done.
Qed.

(** ** [min] and [remove] *)

Section Extracao.
Context (ltb : item → item → bool) (Hord : ordem_fronteira ltb).

(** [min] returns the first element that nothing after it beats and that
    beats everything before it. *)
Lemma py_min_split (l : list item) (best : item) :
  ∃ l1 l2, best :: l = l1 ++ py_min ltb best l :: l2 ∧
    (∀ y, y ∈ l1 → ltb (py_min ltb best l) y = true) ∧
    (∀ y, y ∈ l2 → ltb y (py_min ltb best l) = false).
Proof.
  revert best. induction l as [|x l IH]; intros best; simpl.
  { exists [], []. split; [done|]. split; intros y Hy; by apply elem_of_nil in Hy. }
  destruct (ltb x best) eqn:Hx.
  - destruct (IH x) as (l1 & l2 & Heq & H1 & H2).
    exists (best :: l1), l2. split; [by rewrite Heq|]. split; [|done].
    intros y [->|Hy]%elem_of_cons; [|by apply H1].
    destruct l1 as [|z l1]; simpl in Heq; injection Heq as Hz Hl.
    + by rewrite <- Hz.
    + subst z. eapply of_trans; [done| |done]. apply H1. left.
  - destruct (IH best) as (l1 & l2 & Heq & H1 & H2).
    destruct l1 as [|z l1]; simpl in Heq; injection Heq as Hz Hl.
    + exists [], (x :: l2). split; [by rewrite <- Hz, Hl|].
      split; [intros y Hy; by apply elem_of_nil in Hy|].
      intros y [->|Hy]%elem_of_cons; [by rewrite <- Hz|by apply H2].
    + subst z. exists (best :: x :: l1), l2. split; [simpl; congruence|]. split; [|done].
      intros y Hy. apply elem_of_cons in Hy as [->|Hy]; [apply H1; left|].
      apply elem_of_cons in Hy as [->|Hy]; [|apply H1; by right].
      eapply of_neg; [done| |done]. apply H1. left.
Qed.

Lemma py_remove_split (m : item) (l1 l2 : list item) :
  (∀ y, y ∈ l1 → ltb m y = true) →
  py_remove tupla_eqb m (l1 ++ m :: l2) = Some (l1 ++ l2).
Proof.
  induction l1 as [|y l1 IH]; intros H; simpl.
  - by rewrite tupla_eqb_refl.
  - rewrite (of_neq ltb Hord m y) by (apply H; left).
    rewrite IH; [done|]. intros z Hz. apply H. by right.
Qed.

(** Extraction never raises, removes exactly the selected candidate, and
    the selected candidate has the least distance. *)
Lemma extrair_spec (x : item) (l : list item) :
  ∃ fr', py_remove tupla_eqb (py_min ltb x l) (x :: l) = Some fr' ∧
    x :: l ≡ₚ py_min ltb x l :: fr' ∧
    ∀ y, y ∈ x :: l → ((py_min ltb x l).1 <= y.1)%Q.
Proof.
  destruct (py_min_split l x) as (l1 & l2 & Heq & H1 & H2).
  exists (l1 ++ l2). split; [|split].
  - rewrite Heq. by apply py_remove_split.
  - rewrite Heq. by rewrite Permutation_middle.
  - intros y Hy. rewrite Heq in Hy.
    apply elem_of_app in Hy as [Hy|Hy]; [by apply (of_le ltb Hord), H1|].
    apply elem_of_cons in Hy as [->|Hy]; [lra|].
    apply H2 in Hy. destruct (Qlt_le_dec y.1 (py_min ltb x l).1) as [Hlt|]; [|done].
    apply (of_dist ltb Hord) in Hlt. congruence.
Qed.
End Extracao.

(** The contract of [heapq] holds of its model: [heappop] fails only on an
    empty heap, returns an item that no item of the heap is smaller than, and
    leaves the other items; [heappush] adds the item. *)
Lemma heappop_contrato (heap : list item) :
  match heappop heap with
  | None => heap = []
  | Some (m, r) => heap ≡ₚ m :: r ∧ ∀ y, y ∈ heap → tupla_ltb y m = false
  end.
Proof.
  destruct heap as [|x l]; [done|]. unfold heappop.
  destruct (py_min_split tupla_ltb tupla_ordem l x) as (l1 & l2 & Heq & H1 & H2).
  rewrite Heq. rewrite (py_remove_split tupla_ltb tupla_ordem) by done.
  split; [by rewrite Permutation_middle|].
  intros y Hy.
  apply elem_of_app in Hy as [Hy|Hy].
  - destruct (tupla_ltb y (py_min tupla_ltb x l)) eqn:E; [|done].
    pose proof (of_trans _ tupla_ordem _ _ _ E (H1 y Hy)) as Hyy.
    pose proof (of_neq _ tupla_ordem _ _ Hyy) as Hne.
    by rewrite tupla_eqb_refl in Hne.
  - apply elem_of_cons in Hy as [->|Hy]; [|by apply H2].
    destruct (tupla_ltb (py_min tupla_ltb x l) (py_min tupla_ltb x l)) eqn:E; [|done].
    pose proof (of_neq _ tupla_ordem _ _ E) as Hne.
    by rewrite tupla_eqb_refl in Hne.
Qed.

Lemma heappush_contrato (heap : list item) (x : item) : heappush heap x ≡ₚ x :: heap.
Proof. unfold heappush. by rewrite Permutation_app_comm. Qed.

(** ** The measure *)

Lemma custo_mono (graus : list (string * nat)) (u : string) (V : gset string) :
  custo graus ({[u]} ∪ V) ≤ custo graus V.
Proof.
  unfold custo. induction graus as [|[v g] graus IH]; [done|].
  rewrite !filter_cons. simpl.
  destruct (decide (v ∉ {[u]} ∪ V)), (decide (v ∉ V)); simpl; try lia.
  set_solver.
Qed.

Lemma custo_visita (graus : list (string * nat)) (u : string) (g : nat)
    (V : gset string) :
  (u, g) ∈ graus → u ∉ V → custo graus ({[u]} ∪ V) + S g ≤ custo graus V.
Proof.
  unfold custo. induction graus as [|[v g'] graus IH]; intros Hin Hu.
  { by apply elem_of_nil in Hin. }
  rewrite !filter_cons. simpl.
  apply elem_of_cons in Hin as [Heq|Hin].
  - injection Heq as <- <-.
    rewrite decide_False by set_solver. rewrite decide_True by done. simpl.
    pose proof (custo_mono graus u V) as Hm. unfold custo in Hm. lia.
  - specialize (IH Hin Hu).
    destruct (decide (v ∉ {[u]} ∪ V)), (decide (v ∉ V)); simpl; try lia.
    set_solver.
Qed.

Lemma custo_vazio (graus : list (string * nat)) :
  custo graus ∅ = soma_graus (map snd graus).
Proof.
  unfold custo. induction graus as [|[v g] graus IH]; [done|].
  rewrite filter_cons. simpl. rewrite decide_True by set_solver. simpl.
  by rewrite IH.
Qed.

(** ** The inner loop *)

Lemma empilhar_elem (V : gset string) (dist : Q) (ns : list (string * Q))
    (fr : list item) (y : item) :
  y ∈ empilhar V dist ns fr ↔
  y ∈ fr ∨ ∃ w c, (w, c) ∈ ns ∧ (w ∉ V) ∧ y = ((dist + c)%Q, w).
Proof.
  unfold empilhar. revert fr. induction ns as [|[w c] ns IH]; intros fr; simpl.
  { split; [by left|]. intros [H|(w & c & H & _)]; [done|]. by apply elem_of_nil in H. }
  rewrite IH. case_bool_decide as Hw.
  - split.
    + intros [H|(w' & c' & H1 & H2 & H3)]; [by left|].
      right. exists w', c'. split; [by right|done].
    + intros [H|(w' & c' & H1 & H2 & H3)]; [by left|].
      apply elem_of_cons in H1 as [Heq|H1]; [by injection Heq as -> ->|].
      right. by exists w', c'.
  - rewrite elem_of_app, list_elem_of_singleton. split.
    + intros [[H|H]|(w' & c' & H1 & H2 & H3)]; [by left| |].
      * right. exists w, c. split; [left|done].
      * right. exists w', c'. split; [by right|done].
    + intros [H|(w' & c' & H1 & H2 & H3)]; [left; by left|].
      apply elem_of_cons in H1 as [Heq|H1].
      * injection Heq as -> ->. left. by right.
      * right. by exists w', c'.
Qed.

Lemma empilhar_length (V : gset string) (dist : Q) (ns : list (string * Q))
    (fr : list item) :
  length (empilhar V dist ns fr) ≤ length fr + length ns.
Proof.
  unfold empilhar. revert fr. induction ns as [|[w c] ns IH]; intros fr; simpl; [lia|].
  etrans; [apply IH|]. case_bool_decide; rewrite ?length_app; simpl; lia.
Qed.

(** ** Correctness of the search loop *)

Section Busca.
Context (ltb : item → item → bool) (Hord : ordem_fronteira ltb) (e_pop : erro).
Context (viz : string → res (list (string * Q))) (bom : string → Prop).
Context (graus : list (string * nat)) (o d : string).
Hypothesis Hnn : pesos_nao_negativos (aresta_viz viz).
Hypothesis Hbom :
  ∀ u, bom u → ∃ ns, viz u = Ok ns ∧ ∀ w c, (w, c) ∈ ns → bom w.
Hypothesis Hgraus :
  ∀ u ns, viz u = Ok ns → ns = [] ∨ ∃ g, (u, g) ∈ graus ∧ length ns ≤ g.

Local Abbreviation cam := (caminho (aresta_viz viz) o).
Local Abbreviation inv := (inv_busca viz bom o d).

(** Every path to a node that is not expanded passes a candidate that is
    no farther than the path is long. *)
Lemma fronteira_cobre (fr : list item) (V : gset string) (u : string) (L : Q) :
  inv fr V → cam u L → u ∉ V → ∃ y, y ∈ fr ∧ (y.1 <= L)%Q.
Proof.
  intros Hinv Hcam. induction Hcam as [|u w c L Hcam IH Hed]; intros Hu.
  - destruct (inv_orig _ _ _ _ _ _ Hinv) as [?|(y & Hy & _ & Hle)]; [done|].
    by exists y.
  - pose proof (Hnn _ _ _ Hed) as Hc.
    destruct (decide (u ∈ V)) as [HuV|HuV].
    + destruct (inv_vis _ _ _ _ _ _ Hinv u HuV) as (dv & Hdv & Hviz).
      destruct (Hviz w c Hed) as [?|(y & Hy & _ & Hle)]; [done|].
      exists y. split; [done|]. specialize (Hdv L Hcam). lra.
    + destruct (IH HuV) as (y & Hy & Hle). exists y. split; [done|]. lra.
Qed.

Lemma inv_inicial : bom o → o ≠ d → inv [(0%Q, o)] ∅.
Proof.
  intros Ho Hod. split.
  - intros y ->%list_elem_of_singleton. constructor.
  - by intros y ->%list_elem_of_singleton.
  - right. exists (0%Q, o). split; [apply list_elem_of_singleton; done|].
    split; [done|simpl; lra].
  - set_solver.
  - set_solver.
Qed.

(** Dropping a candidate whose node is already expanded. *)
Lemma inv_descarta (fr fr' : list item) (V : gset string) (m : item) :
  inv fr V → fr ≡ₚ m :: fr' → m.2 ∈ V → inv fr' V.
Proof.
  intros Hinv Hp Hm.
  assert (∀ y, y ∈ fr → y = m ∨ y ∈ fr') as Hsplit.
  { intros y Hy. rewrite Hp in Hy. by apply elem_of_cons in Hy. }
  assert (∀ y, y ∈ fr' → y ∈ fr) as Hsub.
  { intros y Hy. rewrite Hp. by right. }
  split.
  - intros y Hy. by apply (inv_cam _ _ _ _ _ _ Hinv), Hsub.
  - intros y Hy. by apply (inv_bom _ _ _ _ _ _ Hinv), Hsub.
  - destruct (inv_orig _ _ _ _ _ _ Hinv) as [?|(y & Hy & Hyo & Hle)]; [by left|].
    destruct (Hsplit y Hy) as [->|Hy']; [left; by rewrite <- Hyo|].
    right. by exists y.
  - apply (inv_dest _ _ _ _ _ _ Hinv).
  - intros v Hv.
    destruct (inv_vis _ _ _ _ _ _ Hinv v Hv) as (dv & Hdv & Hviz).
    exists dv. split; [done|]. intros w c Hed.
    destruct (Hviz w c Hed) as [?|(y & Hy & Hyw & Hle)]; [by left|].
    destruct (Hsplit y Hy) as [->|Hy']; [left; by rewrite <- Hyw|].
    right. by exists y.
Qed.

(** Expanding the selected candidate. *)
Lemma inv_expande (fr fr' : list item) (V : gset string) (m : item)
    (ns : list (string * Q)) :
  inv fr V → fr ≡ₚ m :: fr' → (∀ y, y ∈ fr → (m.1 <= y.1)%Q) →
  m.2 ≠ d → m.2 ∉ V → viz m.2 = Ok ns →
  inv (empilhar ({[m.2]} ∪ V) m.1 ns fr') ({[m.2]} ∪ V).
Proof.
  intros Hinv Hp Hmin Hmd Hm Hns.
  assert (∀ y, y ∈ fr → y = m ∨ y ∈ fr') as Hsplit.
  { intros y Hy. rewrite Hp in Hy. by apply elem_of_cons in Hy. }
  assert (∀ y, y ∈ fr' → y ∈ fr) as Hsub.
  { intros y Hy. rewrite Hp. by right. }
  assert (m ∈ fr) as Hmfr by (rewrite Hp; left).
  assert (∀ y, y ∈ fr' → y ∈ empilhar ({[m.2]} ∪ V) m.1 ns fr') as Hkeep.
  { intros y Hy. apply empilhar_elem. by left. }
  split.
  - intros y [Hy|(w & c & Hwc & Hw & ->)]%empilhar_elem.
    + by apply (inv_cam _ _ _ _ _ _ Hinv), Hsub.
    + simpl. econstructor; [by apply (inv_cam _ _ _ _ _ _ Hinv m)|].
      by exists ns.
  - intros y [Hy|(w & c & Hwc & Hw & ->)]%empilhar_elem.
    + by apply (inv_bom _ _ _ _ _ _ Hinv), Hsub.
    + simpl. destruct (Hbom m.2 (inv_bom _ _ _ _ _ _ Hinv m Hmfr))
        as (ns' & Hns' & Hb).
      rewrite Hns in Hns'. injection Hns' as <-. by eapply Hb.
  - destruct (inv_orig _ _ _ _ _ _ Hinv) as [?|(y & Hy & Hyo & Hle)];
      [left; set_solver|].
    destruct (Hsplit y Hy) as [->|Hy']; [left; set_solver|].
    right. exists y. split; [by apply Hkeep|done].
  - intros [->%elem_of_singleton|Hd]%elem_of_union; [done|].
    by apply (inv_dest _ _ _ _ _ _ Hinv).
  - intros v [->%elem_of_singleton|Hv]%elem_of_union.
    + exists m.1. split.
      * intros L HL.
        destruct (fronteira_cobre fr V m.2 L Hinv HL Hm) as (y & Hy & Hle).
        specialize (Hmin y Hy). lra.
      * intros w c (ns' & Hns' & Hwc).
        rewrite Hns in Hns'. injection Hns' as <-.
        destruct (decide (w ∈ {[m.2]} ∪ V)) as [?|Hw]; [by left|].
        right. exists ((m.1 + c)%Q, w). split; [|split; [done|simpl; lra]].
        apply empilhar_elem. right. by exists w, c.
    + destruct (inv_vis _ _ _ _ _ _ Hinv v Hv) as (dv & Hdv & Hviz).
      exists dv. split; [done|]. intros w c Hed.
      destruct (Hviz w c Hed) as [?|(y & Hy & Hyw & Hle)]; [left; set_solver|].
      destruct (Hsplit y Hy) as [->|Hy']; [left; set_solver|].
      right. exists y. split; [by apply Hkeep|done].
Qed.

(** With fuel above the measure, the loop returns, and what it returns is
    the length of a shortest path, or [inf] if there is no path. *)
Lemma busca_correta (fuel : nat) (fr : list item) (V : gset string) :
  inv fr V → length fr + custo graus V < fuel →
  ∃ r, busca ltb e_pop viz fuel d fr V = Some (Ok r) ∧
       resultado_correto (aresta_viz viz) o d r.
Proof.
  revert fr V. induction fuel as [|fuel IH]; intros fr V Hinv Hfuel; [lia|].
  destruct fr as [|x l].
  { exists Inf. split; [done|]. intros L HL.
    destruct (fronteira_cobre [] V d L Hinv HL (inv_dest _ _ _ _ _ _ Hinv))
      as (y & Hy & _).
    by apply elem_of_nil in Hy. }
  destruct (extrair_spec ltb Hord x l) as (fr' & Hrem & Hp & Hmin).
  set (m := py_min ltb x l) in *.
  assert (m ∈ x :: l) as Hm by (rewrite Hp; left).
  cbn [busca]. fold m. rewrite Hrem.
  destruct (String.eqb m.2 d) eqn:Hmd.
  { apply String.eqb_eq in Hmd. exists (Fin m.1). split; [done|]. split.
    - rewrite <- Hmd. by apply (inv_cam _ _ _ _ _ _ Hinv).
    - intros L HL.
      destruct (fronteira_cobre _ V d L Hinv HL (inv_dest _ _ _ _ _ _ Hinv))
        as (y & Hy & Hle).
      specialize (Hmin y Hy). lra. }
  apply String.eqb_neq in Hmd.
  apply Permutation_length in Hp as Hlen. simpl in Hlen, Hfuel.
  case_bool_decide as HmV.
  { apply IH; [by eapply inv_descarta|lia]. }
  destruct (Hbom m.2 (inv_bom _ _ _ _ _ _ Hinv m Hm)) as (ns & Hns & _).
  rewrite Hns. apply IH; [by eapply inv_expande|].
  pose proof (empilhar_length ({[m.2]} ∪ V) m.1 ns fr') as Hl.
  destruct (Hgraus _ _ Hns) as [->|(g & Hg & Hgl)].
  - pose proof (custo_mono graus m.2 V). unfold empilhar in *. simpl in *. lia.
  - pose proof (custo_visita graus m.2 g V Hg HmV). lia.
Qed.

(** The query from [o]: origin in the graph, or origin equal to the target. *)
Lemma busca_inicio (fuel : nat) :
  (o ≠ d → bom o) → 1 + soma_graus (map snd graus) < fuel →
  ∃ r, busca ltb e_pop viz fuel d [(0%Q, o)] ∅ = Some (Ok r) ∧
       resultado_correto (aresta_viz viz) o d r.
Proof.
  intros Ho Hfuel. destruct (decide (o = d)) as [<-|Hod].
  - destruct fuel as [|fuel]; [lia|]. exists (Fin 0). split.
    + simpl. unfold tupla_eqb. simpl. by rewrite !String.eqb_refl.
    + split; [constructor|]. intros L HL.
      clear Ho Hfuel. remember o as u eqn:Hu in HL at 2.
      clear Hu. induction HL as [|u w c L HL IH Hed]; [lra|].
      pose proof (Hnn _ _ _ Hed). lra.
  - apply busca_correta; [apply inv_inicial; auto|].
    rewrite custo_vazio. simpl. lia.
Qed.
End Busca.

(** ** The four functions are instances of the search loop *)

Lemma lista_heap_busca (fuel : nat) (grafo : grafo_t) (destino : string)
    (fr : list item) (V : gset string) :
  dijkstra_lista_heap_loop fuel grafo destino fr V =
  busca tupla_ltb IndexError (viz_lista grafo) fuel destino fr V.
Proof.
  revert fr V. induction fuel as [|fuel IH]; intros fr V; [done|].
  destruct fr as [|x l]; [done|]. cbn [dijkstra_lista_heap_loop busca heappop].
  destruct (py_remove tupla_eqb (py_min tupla_ltb x l) (x :: l)) as [fr'|]; [|done].
  destruct (py_min tupla_ltb x l) as [dist no]. cbn [fst snd viz_lista].
  destruct (String.eqb no destino); [done|].
  case_bool_decide; apply IH.
Qed.

Lemma lista_simples_busca (fuel : nat) (grafo : grafo_t) (destino : string)
    (fr : list item) (V : gset string) :
  dijkstra_lista_simples_loop fuel grafo destino fr V =
  busca chave_ltb ValueError (viz_lista grafo) fuel destino fr V.
Proof.
  revert fr V. induction fuel as [|fuel IH]; intros fr V; [done|].
  destruct fr as [|x l]; [done|]. cbn [dijkstra_lista_simples_loop busca].
  destruct (py_min chave_ltb x l) as [dist no].
  destruct (py_remove tupla_eqb (dist, no) (x :: l)) as [fr'|]; [|done].
  cbn [fst snd viz_lista].
  destruct (String.eqb no destino); [done|].
  case_bool_decide; apply IH.
Qed.

Lemma expandir_linha_viz (nodes : list string) (V : gset string) (dist : Q)
    (j : nat) (row : list num) (fr : list item) :
  expandir_linha (λ l x, l ++ [x]) nodes V dist j row fr =
  match vizinhos_linha nodes j row with
  | Ok ns => Ok (empilhar V dist ns fr)
  | Exc e => Exc e
  end.
Proof.
  revert j fr. induction row as [|[peso|] row IH]; intros j fr; simpl; [done| |apply IH].
  destruct (nodes !! j) as [w|]; [|done].
  case_bool_decide as Hw; rewrite IH;
    destruct (vizinhos_linha nodes (S j) row); try done;
    unfold empilhar; simpl.
  - by rewrite bool_decide_true.
  - by rewrite bool_decide_false.
Qed.

Lemma matriz_heap_busca (fuel : nat) (matriz : matriz_t) (idx : gmap string nat)
    (nodes : list string) (destino : string) (fr : list item) (V : gset string) :
  dijkstra_matriz_heap_loop fuel matriz idx nodes destino fr V =
  busca tupla_ltb IndexError (viz_matriz matriz idx nodes) fuel destino fr V.
Proof.
  revert fr V. induction fuel as [|fuel IH]; intros fr V; [done|].
  destruct fr as [|x l]; [done|]. cbn [dijkstra_matriz_heap_loop busca heappop].
  destruct (py_remove tupla_eqb (py_min tupla_ltb x l) (x :: l)) as [fr'|]; [|done].
  destruct (py_min tupla_ltb x l) as [dist no]. cbn [fst snd].
  destruct (String.eqb no destino); [done|].
  case_bool_decide; [apply IH|]. unfold viz_matriz.
  destruct (idx !! no) as [i|]; [|done].
  destruct (matriz !! i) as [row|]; [|done].
  unfold heappush. rewrite expandir_linha_viz.
  destruct (vizinhos_linha nodes 0 row); [apply IH|done].
Qed.

Lemma matriz_simples_busca (fuel : nat) (matriz : matriz_t) (idx : gmap string nat)
    (nodes : list string) (destino : string) (fr : list item) (V : gset string) :
  dijkstra_matriz_simples_loop fuel matriz idx nodes destino fr V =
  busca chave_ltb ValueError (viz_matriz matriz idx nodes) fuel destino fr V.
Proof.
  revert fr V. induction fuel as [|fuel IH]; intros fr V; [done|].
  destruct fr as [|x l]; [done|]. cbn [dijkstra_matriz_simples_loop busca].
  destruct (py_min chave_ltb x l) as [dist no].
  destruct (py_remove tupla_eqb (dist, no) (x :: l)) as [fr'|]; [|done].
  cbn [fst snd].
  destruct (String.eqb no destino); [done|].
  case_bool_decide; [apply IH|]. unfold viz_matriz.
  destruct (idx !! no) as [i|]; [|done].
  destruct (matriz !! i) as [row|]; [|done].
  unfold append. rewrite expandir_linha_viz.
  destruct (vizinhos_linha nodes 0 row); [apply IH|done].
Qed.

(** ** Edges and paths of the two representations *)

Lemma caminho_ext (A B : string → string → Q → Prop) (o u : string) (L : Q) :
  (∀ u w c, A u w c → B u w c) → caminho A o u L → caminho B o u L.
Proof.
  intros HAB H. induction H as [|u w c L H IH Hed]; econstructor; eauto.
Qed.

Lemma resultado_correto_ext (A B : string → string → Q → Prop) (o d : string)
    (r : num) :
  (∀ u w c, A u w c ↔ B u w c) → resultado_correto A o d r → resultado_correto B o d r.
Proof.
  intros HAB. destruct r as [L|]; simpl.
  - intros [H1 H2]. split.
    + eapply caminho_ext; [|done]. intros. by apply HAB.
    + intros L' HL'. apply H2. eapply caminho_ext; [|done]. intros. by apply HAB.
  - intros H L' HL'. apply (H L'). eapply caminho_ext; [|done]. intros. by apply HAB.
Qed.

Lemma aresta_viz_lista (grafo : grafo_t) (u w : string) (c : Q) :
  aresta_viz (viz_lista grafo) u w c ↔ aresta_lista grafo u w c.
Proof.
  unfold aresta_viz, aresta_lista, viz_lista. split.
  - intros (ns & Hns & Hwc). injection Hns as <-.
    destruct (grafo !! u) as [adj|]; simpl in Hwc; [by exists adj|].
    by apply elem_of_nil in Hwc.
  - intros (adj & Hadj & Hwc). exists adj. by rewrite Hadj.
Qed.

Lemma graus_lista_ok (grafo : grafo_t) (u : string) (ns : list (string * Q)) :
  viz_lista grafo u = Ok ns →
  ns = [] ∨ ∃ g, (u, g) ∈ graus_lista grafo ∧ length ns ≤ g.
Proof.
  unfold viz_lista. intros Hns. injection Hns as <-.
  destruct (grafo !! u) as [adj|] eqn:Hadj; simpl; [|by left].
  right. exists (length adj). split; [|done].
  unfold graus_lista. apply list_elem_of_fmap. exists (u, adj). split; [done|].
  by apply elem_of_map_to_list.
Qed.

Lemma vizinhos_linha_elem (nodes : list string) (j0 : nat) (row : list num)
    (ns : list (string * Q)) (w : string) (c : Q) :
  vizinhos_linha nodes j0 row = Ok ns →
  (w, c) ∈ ns ↔ ∃ j, row !! j = Some (Fin c) ∧ nodes !! (j0 + j) = Some w.
Proof.
  revert j0 ns. induction row as [|[peso|] row IH]; intros j0 ns; simpl.
  - intros Hns. injection Hns as <-. split; [by intros ?%elem_of_nil|].
    by intros (j & Hj & _).
  - destruct (nodes !! j0) as [v|] eqn:Hv; [|done].
    destruct (vizinhos_linha nodes (S j0) row) as [ns'|] eqn:Hns'; [|done].
    intros Hns. injection Hns as <-. rewrite elem_of_cons, (IH (S j0) ns' Hns'). split.
    + intros [Heq|(j & Hj & Hn)].
      * injection Heq as -> ->. exists 0. by rewrite Nat.add_0_r.
      * exists (S j). by rewrite Nat.add_succ_r.
    + intros ([|j] & Hj & Hn).
      * left. rewrite Nat.add_0_r in Hn. simpl in Hj. congruence.
      * right. exists j. by rewrite Nat.add_succ_r in Hn.
  - intros Hns. rewrite (IH (S j0) ns Hns). split.
    + intros (j & Hj & Hn). exists (S j). by rewrite Nat.add_succ_r.
    + intros ([|j] & Hj & Hn); [done|].
      exists j. by rewrite Nat.add_succ_r in Hn.
Qed.

Lemma vizinhos_linha_length (nodes : list string) (j0 : nat) (row : list num)
    (ns : list (string * Q)) :
  vizinhos_linha nodes j0 row = Ok ns → length ns ≤ length row.
Proof.
  revert j0 ns. induction row as [|[peso|] row IH]; intros j0 ns; simpl.
  - by intros [= <-].
  - destruct (nodes !! j0); [|done].
    destruct (vizinhos_linha nodes (S j0) row) as [ns'|] eqn:Hns'; [|done].
    intros [= <-]. simpl. specialize (IH _ _ Hns'). lia.
  - intros Hns. specialize (IH _ _ Hns). lia.
Qed.

Lemma vizinhos_linha_ok (nodes : list string) (j0 : nat) (row : list num) :
  (∀ j c, row !! j = Some (Fin c) → j0 + j < length nodes) →
  ∃ ns, vizinhos_linha nodes j0 row = Ok ns.
Proof.
  revert j0. induction row as [|[peso|] row IH]; intros j0 Hrow; simpl.
  - by exists [].
  - destruct (lookup_lt_is_Some_2 nodes j0) as [v ->].
    { specialize (Hrow 0 peso eq_refl). lia. }
    destruct (IH (S j0)) as [ns ->]; [|by eexists].
    intros j c Hj. specialize (Hrow (S j) c Hj). lia.
  - apply IH. intros j c Hj. specialize (Hrow (S j) c Hj). lia.
Qed.

Section Matriz.
Context (matriz : matriz_t) (idx : gmap string nat) (nodes : list string).
Hypothesis Hok : matriz_ok matriz idx nodes.

Lemma viz_matriz_ok (u : string) :
  is_Some (idx !! u) →
  ∃ ns, viz_matriz matriz idx nodes u = Ok ns ∧
        ∀ w c, (w, c) ∈ ns → is_Some (idx !! w).
Proof.
  intros [i Hi]. unfold viz_matriz. rewrite Hi.
  destruct (lookup_lt_is_Some_2 matriz i) as [row Hrow];
    [by eapply mok_idx|].
  rewrite Hrow. destruct (vizinhos_linha_ok nodes 0 row) as [ns Hns].
  { intros j c Hj. simpl. by eapply mok_col. }
  exists ns. split; [done|]. intros w c Hwc.
  apply (vizinhos_linha_elem _ _ _ _ _ _ Hns) in Hwc as (j & _ & Hw).
  apply (mok_nodes _ _ _ Hok). by eapply list_elem_of_lookup_2.
Qed.

Lemma aresta_viz_matriz (u w : string) (c : Q) :
  aresta_viz (viz_matriz matriz idx nodes) u w c ↔
  aresta_matriz matriz idx nodes u w c.
Proof.
  unfold aresta_viz, aresta_matriz, viz_matriz. split.
  - intros (ns & Hns & Hwc).
    destruct (idx !! u) as [i|]; [|done].
    destruct (matriz !! i) as [row|] eqn:Hrow; [|done].
    apply (vizinhos_linha_elem _ _ _ _ _ _ Hns) in Hwc as (j & Hj & Hw).
    by exists i, row, j.
  - intros (i & row & j & Hi & Hrow & Hj & Hw).
    destruct (viz_matriz_ok u) as (ns & Hns & _); [by rewrite Hi|].
    exists ns. unfold viz_matriz in Hns. rewrite Hi, Hrow in Hns.
    rewrite Hi, Hrow. split; [done|].
    apply (vizinhos_linha_elem _ _ _ _ _ _ Hns). by exists j.
Qed.

Lemma graus_matriz_ok (u : string) (ns : list (string * Q)) :
  viz_matriz matriz idx nodes u = Ok ns →
  ns = [] ∨ ∃ g, (u, g) ∈ graus_matriz matriz idx ∧ length ns ≤ g.
Proof.
  unfold viz_matriz. intros Hns.
  destruct (idx !! u) as [i|] eqn:Hi; [|done].
  destruct (matriz !! i) as [row|] eqn:Hrow; [|done].
  right. exists (grau_matriz matriz i). split.
  - unfold graus_matriz. apply list_elem_of_fmap. exists (u, i). split; [done|].
    by apply elem_of_map_to_list.
  - unfold grau_matriz. rewrite Hrow. simpl. by eapply vizinhos_linha_length.
Qed.
End Matriz.

(** ** The four functions return the shortest distance *)

Lemma busca_mesmo_no (ltb : item → item → bool) (e_pop : erro)
    (viz : string → res (list (string * Q))) (fuel : nat) (no : string) :
  busca ltb e_pop viz (S fuel) no [(0%Q, no)] ∅ = Some (Ok (Fin 0)).
Proof.
  simpl. unfold tupla_eqb. simpl. by rewrite !String.eqb_refl.
Qed.

Lemma busca_origem_erro (ltb : item → item → bool) (e_pop e : erro)
    (viz : string → res (list (string * Q))) (fuel : nat) (o d : string) :
  o ≠ d → viz o = Exc e →
  busca ltb e_pop viz (S fuel) d [(0%Q, o)] ∅ = Some (Exc e).
Proof.
  intros Hod Hviz. simpl. unfold tupla_eqb. simpl. rewrite String.eqb_refl.
  apply String.eqb_neq in Hod as ->. rewrite bool_decide_false by set_solver.
  by rewrite Hviz.
Qed.

Lemma combustivel_lista_basta (grafo : grafo_t) :
  1 + soma_graus (map snd (graus_lista grafo)) < combustivel_lista grafo.
Proof.
  unfold combustivel_lista, graus_lista. rewrite map_map. simpl. lia.
Qed.

Lemma combustivel_matriz_basta (matriz : matriz_t) (idx : gmap string nat) :
  1 + soma_graus (map snd (graus_matriz matriz idx)) < combustivel_matriz matriz idx.
Proof.
  unfold combustivel_matriz, graus_matriz. rewrite map_map. simpl. lia.
Qed.

(** ** Termination, whatever the input *)

Lemma py_remove_length {A : Type} (eqb : A → A → bool) (x : A) (l r : list A) :
  py_remove eqb x l = Some r → length l = S (length r).
Proof.
  revert r. induction l as [|y l IH]; intros r; simpl; [done|].
  destruct (eqb y x); [by intros [= <-]|].
  destruct (py_remove eqb x l) as [r'|]; [|done].
  intros [= <-]. simpl. by rewrite (IH r').
Qed.

(** The fuel above the measure is never used up: the loop returns a value
    or raises, on any graph and for any selection order. *)
Lemma busca_termina (ltb : item → item → bool) (e_pop : erro)
    (viz : string → res (list (string * Q))) (graus : list (string * nat))
    (d : string) (fuel : nat) (fr : list item) (V : gset string) :
  (∀ u ns, viz u = Ok ns → ns = [] ∨ ∃ g, (u, g) ∈ graus ∧ length ns ≤ g) →
  length fr + custo graus V < fuel →
  is_Some (busca ltb e_pop viz fuel d fr V).
Proof.
  intros Hgraus. revert fr V.
  induction fuel as [|fuel IH]; intros fr V Hfuel; [lia|].
  destruct fr as [|x l]; [by eexists|]. cbn [busca].
  destruct (py_remove tupla_eqb (py_min ltb x l) (x :: l)) as [fr'|] eqn:Hrem;
    [|by eexists].
  apply py_remove_length in Hrem. simpl in Hrem, Hfuel.
  destruct (String.eqb (py_min ltb x l).2 d); [by eexists|].
  case_bool_decide as HmV; [apply IH; lia|].
  destruct (viz (py_min ltb x l).2) as [ns|] eqn:Hns; [|by eexists].
  apply IH.
  pose proof (empilhar_length ({[(py_min ltb x l).2]} ∪ V)
                (py_min ltb x l).1 ns fr') as Hl.
  destruct (Hgraus _ _ Hns) as [->|(g & Hg & Hgl)].
  - pose proof (custo_mono graus (py_min ltb x l).2 V).
    unfold empilhar in *. simpl in *. lia.
  - pose proof (custo_visita graus (py_min ltb x l).2 g V Hg HmV). lia.
Qed.

(** The four functions always terminate: their fuel is enough for every
    graph, matrix, index, node list, origin and target. *)
Lemma dijkstra_termina (grafo : grafo_t) (matriz : matriz_t)
    (idx : gmap string nat) (nodes : list string) (o d : string) :
  is_Some (dijkstra_lista_heap grafo o d) ∧
  is_Some (dijkstra_lista_simples grafo o d) ∧
  is_Some (dijkstra_matriz_heap matriz idx nodes o d) ∧
  is_Some (dijkstra_matriz_simples matriz idx nodes o d).
Proof.
  unfold dijkstra_lista_heap, dijkstra_lista_simples, dijkstra_matriz_heap,
    dijkstra_matriz_simples.
  rewrite lista_heap_busca, lista_simples_busca, matriz_heap_busca,
    matriz_simples_busca.
  pose proof (combustivel_lista_basta grafo) as Hl.
  pose proof (combustivel_matriz_basta matriz idx) as Hm.
  repeat split.
  - apply (busca_termina _ _ _ (graus_lista grafo)); [apply graus_lista_ok|].
    rewrite custo_vazio. simpl. lia.
  - apply (busca_termina _ _ _ (graus_lista grafo)); [apply graus_lista_ok|].
    rewrite custo_vazio. simpl. lia.
  - apply (busca_termina _ _ _ (graus_matriz matriz idx)); [apply graus_matriz_ok|].
    rewrite custo_vazio. simpl. lia.
  - apply (busca_termina _ _ _ (graus_matriz matriz idx)); [apply graus_matriz_ok|].
    rewrite custo_vazio. simpl. lia.
Qed.

Section Lista.
Context (grafo : grafo_t).
Hypothesis Hnn : pesos_nao_negativos (aresta_lista grafo).

Lemma busca_lista_correta (ltb : item → item → bool) (e_pop : erro)
    (o d : string) :
  ordem_fronteira ltb →
  ∃ r, busca ltb e_pop (viz_lista grafo) (combustivel_lista grafo) d
         [(0%Q, o)] ∅ = Some (Ok r) ∧
       resultado_correto (aresta_lista grafo) o d r.
Proof.
  intros Hord.
  destruct (busca_inicio ltb Hord e_pop (viz_lista grafo) (λ _, True)
              (graus_lista grafo) o d) with (fuel := combustivel_lista grafo)
    as (r & Hr & Hc).
  - intros u w c Hed. apply aresta_viz_lista in Hed. by eapply Hnn.
  - intros u _. by eexists.
  - apply graus_lista_ok.
  - done.
  - apply combustivel_lista_basta.
  - exists r. split; [done|].
    eapply resultado_correto_ext; [|done]. apply aresta_viz_lista.
Qed.

Lemma lista_heap_correta (o d : string) :
  ∃ r, dijkstra_lista_heap grafo o d = Some (Ok r) ∧
       resultado_correto (aresta_lista grafo) o d r.
Proof.
  unfold dijkstra_lista_heap. rewrite lista_heap_busca.
  apply busca_lista_correta, tupla_ordem.
Qed.

Lemma lista_simples_correta (o d : string) :
  ∃ r, dijkstra_lista_simples grafo o d = Some (Ok r) ∧
       resultado_correto (aresta_lista grafo) o d r.
Proof.
  unfold dijkstra_lista_simples. rewrite lista_simples_busca.
  apply busca_lista_correta, chave_ordem.
Qed.
End Lista.

Section MatrizCorreta.
Context (matriz : matriz_t) (idx : gmap string nat) (nodes : list string).
Hypothesis Hok : matriz_ok matriz idx nodes.
Hypothesis Hnn : pesos_nao_negativos (aresta_matriz matriz idx nodes).

Lemma busca_matriz_correta (ltb : item → item → bool) (e_pop : erro)
    (o d : string) :
  ordem_fronteira ltb → is_Some (idx !! o) ∨ o = d →
  ∃ r, busca ltb e_pop (viz_matriz matriz idx nodes)
         (combustivel_matriz matriz idx) d [(0%Q, o)] ∅ = Some (Ok r) ∧
       resultado_correto (aresta_matriz matriz idx nodes) o d r.
Proof.
  intros Hord Ho.
  destruct (busca_inicio ltb Hord e_pop (viz_matriz matriz idx nodes)
              (λ u, is_Some (idx !! u)) (graus_matriz matriz idx) o d)
    with (fuel := combustivel_matriz matriz idx) as (r & Hr & Hc).
  - intros u w c Hed. apply aresta_viz_matriz in Hed; [|done]. by eapply Hnn.
  - intros u Hu. by apply viz_matriz_ok.
  - apply graus_matriz_ok.
  - intros Hod. by destruct Ho.
  - apply combustivel_matriz_basta.
  - exists r. split; [done|].
    eapply resultado_correto_ext; [|done]. by apply aresta_viz_matriz.
Qed.

Lemma matriz_heap_correta (o d : string) :
  is_Some (idx !! o) ∨ o = d →
  ∃ r, dijkstra_matriz_heap matriz idx nodes o d = Some (Ok r) ∧
       resultado_correto (aresta_matriz matriz idx nodes) o d r.
Proof.
  unfold dijkstra_matriz_heap. rewrite matriz_heap_busca.
  apply busca_matriz_correta, tupla_ordem.
Qed.

Lemma matriz_simples_correta (o d : string) :
  is_Some (idx !! o) ∨ o = d →
  ∃ r, dijkstra_matriz_simples matriz idx nodes o d = Some (Ok r) ∧
       resultado_correto (aresta_matriz matriz idx nodes) o d r.
Proof.
  unfold dijkstra_matriz_simples. rewrite matriz_simples_busca.
  apply busca_matriz_correta, chave_ordem.
Qed.
End MatrizCorreta.

(** An origin without an index, other than the target: [idx[no]] raises. *)
Lemma matriz_origem_desconhecida (matriz : matriz_t) (idx : gmap string nat)
    (nodes : list string) (o d : string) :
  idx !! o = None → o ≠ d →
  dijkstra_matriz_heap matriz idx nodes o d = Some (Exc KeyError) ∧
  dijkstra_matriz_simples matriz idx nodes o d = Some (Exc KeyError).
Proof.
  intros Ho Hod. unfold dijkstra_matriz_heap, dijkstra_matriz_simples.
  rewrite matriz_heap_busca, matriz_simples_busca.
  unfold combustivel_matriz. cbn [Nat.add].
  rewrite !(busca_origem_erro _ _ KeyError) by
    (done || (unfold viz_matriz; by rewrite Ho)).
  done.
Qed.

Lemma resultado_unico (A : string → string → Q → Prop) (o d : string)
    (r1 r2 : num) :
  resultado_correto A o d r1 → resultado_correto A o d r2 → num_eq r1 r2.
Proof.
  destruct r1 as [L1|], r2 as [L2|]; simpl.
  - intros [Hc1 Hm1] [Hc2 Hm2]. specialize (Hm1 _ Hc2). specialize (Hm2 _ Hc1). lra.
  - intros [Hc1 _] H. by apply (H L1).
  - intros H [Hc2 _]. by apply (H L2).
  - done.
Qed.

(** ** The executable checks imply the invariants *)

Lemma grafo_nao_negativo_ok (grafo : grafo_t) :
  grafo_nao_negativo grafo = true → pesos_nao_negativos (aresta_lista grafo).
Proof.
  unfold grafo_nao_negativo. rewrite forallb_forall.
  intros H u w c (adj & Hadj & Hwc).
  specialize (H (u, adj)). simpl in H. rewrite forallb_forall in H.
  apply Qle_bool_iff. apply (H (proj1 (list_elem_of_In _ _)
    (proj2 (elem_of_map_to_list grafo u adj) Hadj)) (w, c)).
  by apply list_elem_of_In.
Qed.

Lemma colunas_finitas_elem (j0 j : nat) (row : list num) (c : Q) :
  row !! j = Some (Fin c) → (j0 + j) ∈ colunas_finitas j0 row.
Proof.
  revert j0 j. induction row as [|[x|] row IH]; intros j0 [|j] Hj; simpl in *;
    try done.
  - rewrite Nat.add_0_r. left.
  - right. rewrite Nat.add_succ_r. by apply (IH (S j0)).
  - rewrite Nat.add_succ_r. by apply (IH (S j0)).
Qed.

Lemma matriz_indexada_ok (matriz : matriz_t) (idx : gmap string nat)
    (nodes : list string) :
  matriz_indexada matriz idx nodes = true → matriz_ok matriz idx nodes.
Proof.
  unfold matriz_indexada. rewrite !andb_true_iff, !forallb_forall.
  intros [[H1 H2] H3]. split.
  - intros no i Hi. specialize (H1 (no, i)). simpl in H1.
    eapply bool_decide_eq_true_1, H1, list_elem_of_In. by apply elem_of_map_to_list.
  - intros i row j c Hrow Hj. specialize (H2 row).
    rewrite forallb_forall in H2.
    eapply bool_decide_eq_true_1, H2.
    + eapply list_elem_of_In, list_elem_of_lookup_2, Hrow.
    + apply list_elem_of_In. by apply (colunas_finitas_elem 0 j row c).
  - intros no Hno. by eapply bool_decide_eq_true_1, H3, list_elem_of_In.
Qed.

Lemma matriz_nao_negativa_ok (matriz : matriz_t) (idx : gmap string nat)
    (nodes : list string) :
  matriz_nao_negativa matriz = true →
  pesos_nao_negativos (aresta_matriz matriz idx nodes).
Proof.
  unfold matriz_nao_negativa. rewrite forallb_forall.
  intros H u w c (i & row & j & _ & Hrow & Hj & _).
  specialize (H row). rewrite forallb_forall in H.
  apply Qle_bool_iff.
  apply (H (proj1 (list_elem_of_In _ _) (list_elem_of_lookup_2 _ _ _ Hrow)) (Fin c)).
  eapply list_elem_of_In, list_elem_of_lookup_2, Hj.
Qed.

(** ** Scaling *)

Section Escala.
Context (A A' : string → string → Q → Prop) (k : Q).
Hypothesis Hk : (0 <= k)%Q.
Hypothesis HA' : ∀ u w c', A' u w c' ↔ ∃ c, A u w c ∧ c' = (c * k)%Q.




End Escala.




(** ** The stable sort *)

Lemma inserir_por_prazo_perm (e : Entrega) (l : list Entrega) :
  inserir_por_prazo e l ≡ₚ e :: l.
Proof.
  induction l as [|x l IH]; simpl; [done|].
  destruct (Z.leb (prazo e) (prazo x)); [done|].
  by rewrite IH, Permutation_swap.
Qed.

Lemma sorted_por_prazo_perm (l : list Entrega) : sorted_por_prazo l ≡ₚ l.
Proof.
  induction l as [|e l IH]; simpl; [done|].
  by rewrite inserir_por_prazo_perm, IH.
Qed.






(** ** Selecting a combination *)


Lemma testar_caminhoes_examinar (σ : armazem) (e : Entrega)
    (buscar : string → string → num) (centro : string) (d : Q)
    (caminhoes : list ref) (melhor : melhor_t) :
  buscar centro (destino e) = Fin d →
  testar_caminhoes σ e centro d caminhoes melhor =
  fold_left (examinar σ e buscar) ((λ cam, (centro, cam)) <$> caminhoes) melhor.
Proof.
  intros Hd. unfold testar_caminhoes. revert melhor.
  induction caminhoes as [|cam caminhoes IH]; intros melhor; simpl; [done|].
  rewrite IH. f_equal. unfold examinar, aceita. simpl. rewrite Hd.
  by destruct (cabe (σ cam) e d).
Qed.

Lemma inalcancavel_examinar (σ : armazem) (e : Entrega)
    (buscar : string → string → num) (centro : string)
    (caminhoes : list ref) (melhor : melhor_t) :
  buscar centro (destino e) = Inf →
  fold_left (examinar σ e buscar) ((λ cam, (centro, cam)) <$> caminhoes) melhor
  = melhor.
Proof.
  intros Hd. induction caminhoes as [|cam caminhoes IH]; simpl; [done|].
  unfold examinar at 2, aceita. simpl. by rewrite Hd.
Qed.

Lemma escolher_examinar (σ : armazem) (e : Entrega) (caminhoes : list ref)
    (centros : list string) (buscar : string → string → num) :
  escolher σ e caminhoes centros buscar =
  fold_left (examinar σ e buscar) (combinacoes centros caminhoes) None.
Proof.
  unfold escolher, combinacoes. generalize (@None (ref * string * Q)).
  induction centros as [|centro centros IH]; intros melhor; [done|].
  rewrite bind_cons, fold_left_app. simpl. rewrite IH. f_equal.
  destruct (buscar centro (destino e)) as [d|] eqn:Hd.
  - by apply testar_caminhoes_examinar.
  - by rewrite inalcancavel_examinar.
Qed.

Lemma examinar_primeira_minima (σ : armazem) (e : Entrega)
    (buscar : string → string → num) (l : list (string * ref)) :
  primeira_minima σ e buscar l (fold_left (examinar σ e buscar) l None).
Proof.
  induction l as [|c l IH] using rev_ind; simpl.
  { by intros c ?%elem_of_nil. }
  rewrite fold_left_app. simpl.
  destruct (fold_left (examinar σ e buscar) l None) as [[[cam centro] d0]|];
    unfold examinar; simpl in *.
  - destruct IH as (antes & depois & Hl & Hac & Ha & Hd).
    destruct (aceita σ e buscar c) as [d|] eqn:Hc.
    + destruct (Qltb d d0) eqn:Hlt.
      * apply Qltb_lt in Hlt. exists l, []. destruct c as [centro' cam'].
        split; [done|]. split; [done|]. split; [|by intros ? ? ?%elem_of_nil].
        intros c' d' Hc' Hac'. rewrite Hl in Hc'.
        apply elem_of_app in Hc' as [Hc'|Hc'].
        { specialize (Ha c' d' Hc' Hac'). lra. }
        apply elem_of_cons in Hc' as [->|Hc'].
        { rewrite Hac in Hac'. injection Hac' as <-. done. }
        specialize (Hd c' d' Hc' Hac'). lra.
      * apply Qltb_ge in Hlt. exists antes, (depois ++ [c]).
        split; [by rewrite Hl, <- app_assoc|]. split; [done|]. split; [done|].
        intros c' d' [Hc'| ->%list_elem_of_singleton]%elem_of_app Hac'.
        { by eapply Hd. }
        rewrite Hc in Hac'. by injection Hac' as <-.
    + exists antes, (depois ++ [c]).
      split; [by rewrite Hl, <- app_assoc|]. split; [done|]. split; [done|].
      intros c' d' [Hc'| ->%list_elem_of_singleton]%elem_of_app Hac'.
      { by eapply Hd. }
      by rewrite Hc in Hac'.
  - destruct (aceita σ e buscar c) as [d|] eqn:Hc.
    + exists l, []. destruct c as [centro' cam'].
      split; [done|]. split; [done|]. split; [|by intros ? ? ?%elem_of_nil].
      intros c' d' Hc' Hac'. by rewrite (IH c' Hc') in Hac'.
    + intros c' [Hc'| ->%list_elem_of_singleton]%elem_of_app; [by apply IH|done].
Qed.

Lemma escolher_primeira_minima (σ : armazem) (e : Entrega) (caminhoes : list ref)
    (centros : list string) (buscar : string → string → num) :
  primeira_minima σ e buscar (combinacoes centros caminhoes)
    (escolher σ e caminhoes centros buscar).
Proof. rewrite escolher_examinar. apply examinar_primeira_minima. Qed.

Lemma combinacoes_elem (centros : list string) (caminhoes : list ref)
    (centro : string) (cam : ref) :
  (centro, cam) ∈ combinacoes centros caminhoes ↔
  centro ∈ centros ∧ cam ∈ caminhoes.
Proof.
  unfold combinacoes. rewrite list_elem_of_bind. split.
  - intros (c & Hin & Hc). apply list_elem_of_fmap in Hin as (cam' & Heq & Hcam).
    by injection Heq as -> ->.
  - intros [Hc Hcam]. exists centro. split; [|done].
    apply list_elem_of_fmap. by exists cam.
Qed.

(** A selected truck belongs to the fleet and fits the delivery. *)
Lemma escolher_some (σ : armazem) (e : Entrega) (caminhoes : list ref)
    (centros : list string) (buscar : string → string → num)
    (cam : ref) (centro : string) (d : Q) :
  escolher σ e caminhoes centros buscar = Some (cam, centro, d) →
  cam ∈ caminhoes ∧ centro ∈ centros ∧ aceita σ e buscar (centro, cam) = Some d.
Proof.
  intros H. pose proof (escolher_primeira_minima σ e caminhoes centros buscar) as Hp.
  rewrite H in Hp. destruct Hp as (antes & depois & Hl & Hac & _).
  assert ((centro, cam) ∈ combinacoes centros caminhoes) as Hin.
  { rewrite Hl. apply elem_of_app. right. left. }
  apply combinacoes_elem in Hin as [? ?]. done.
Qed.

(** ** A run and its record *)

Lemma debitar_id (σ : armazem) (e : Entrega) (m : melhor_t) (l : ref) :
  id (debitar σ e m l) = id (σ l).
Proof.
  destruct m as [[[cam centro] d]|]; simpl; [|done].
  unfold gravar. destruct (Nat.eqb l cam) eqn:Hl; [|done].
  by apply Nat.eqb_eq in Hl as ->.
Qed.

Lemma aplicar_armazem (est : estado) (e : Entrega) (m : melhor_t) :
  est_armazem (aplicar est e m) = debitar (est_armazem est) e m.
Proof. by destruct m as [[[cam centro] d]|]. Qed.

Lemma decisoes_entregas (caminhoes : list ref) (centros : list string)
    (buscar : string → string → num) (es : list Entrega) (σ : armazem) :
  (decisoes caminhoes centros buscar es σ).*1 = es.
Proof.
  revert σ. induction es as [|e es IH]; intros σ; simpl; [done|]. by rewrite IH.
Qed.

Lemma alocadas_recusadas (ds : list (Entrega * melhor_t)) :
  ds.*1 ≡ₚ alocadas ds ++ recusadas ds.
Proof.
  induction ds as [|[e [m|]] ds IH]; simpl; [done| |].
  - by rewrite IH.
  - unfold alocadas, recusadas in *. simpl. rewrite IH.
    by rewrite Permutation_middle.
Qed.

Section Execucao.
Context (caminhoes : list ref) (centros : list string).
Context (buscar : string → string → num).

Local Abbreviation proc := (processar caminhoes centros buscar).
Local Abbreviation decs := (decisoes caminhoes centros buscar).

Lemma processar_cons (e : Entrega) (es : list Entrega) (est : estado) :
  proc (e :: es) est = proc es (passo caminhoes centros buscar est e).
Proof. done. Qed.

Lemma processar_app (es1 es2 : list Entrega) (est : estado) :
  proc (es1 ++ es2) est = proc es2 (proc es1 est).
Proof. apply fold_left_app. Qed.

(** The unallocated list is the deliveries for which nothing was selected. *)
Lemma processar_nao_alocadas (es : list Entrega) (est : estado) :
  est_nao_alocadas (proc es est) =
  est_nao_alocadas est ++ recusadas (decs es (est_armazem est)).
Proof.
  revert est. induction es as [|e es IH]; intros est.
  { simpl. by rewrite app_nil_r. }
  rewrite processar_cons, IH. unfold passo. rewrite aplicar_armazem. simpl.
  destruct (escolher (est_armazem est) e caminhoes centros buscar)
    as [[[cam centro] d]|]; simpl; [done|].
  by rewrite <- app_assoc.
Qed.

Lemma processar_id (es : list Entrega) (est : estado) (l : ref) :
  id (est_armazem (proc es est) l) = id (est_armazem est l).
Proof.
  revert est. induction es as [|e es IH]; intros est; [done|].
  rewrite processar_cons, IH. unfold passo.
  by rewrite aplicar_armazem, debitar_id.
Qed.

(** Every selected truck belongs to the fleet. *)
Lemma decisoes_caminhao (es : list Entrega) (σ : armazem)
    (e : Entrega) (cam : ref) (centro : string) (d : Q) :
  (e, Some (cam, centro, d)) ∈ decs es σ → cam ∈ caminhoes.
Proof.
  revert σ. induction es as [|e' es IH]; intros σ; simpl.
  { by intros ?%elem_of_nil. }
  intros [Heq|Hin]%elem_of_cons; [|by eapply IH].
  injection Heq as -> Hm. symmetry in Hm.
  by apply escolher_some in Hm as (? & _).
Qed.
End Execucao.

(** ** The route map *)

Lemma total_pernas_insert (rotas : gmap Z (list perna)) (k : Z) (l : list perna) :
  rotas !! k = None →
  total_pernas (<[k := l]> rotas) = length l + total_pernas rotas.
Proof.
  intros Hk. unfold total_pernas.
  rewrite map_fold_insert_L; [done| |done]. intros. lia.
Qed.

Lemma total_pernas_alter (rotas : gmap Z (list perna)) (k : Z) (l : list perna)
    (x : perna) :
  rotas !! k = Some l →
  total_pernas (alter (λ l, l ++ [x]) k rotas) = S (total_pernas rotas).
Proof.
  intros Hk.
  rewrite <- (insert_delete_id rotas k l Hk) at 2.
  rewrite <- (insert_delete_id rotas k l Hk) at 1.
  rewrite alter_insert_eq, !total_pernas_insert by apply lookup_delete_eq.
  rewrite length_app. simpl. lia.
Qed.

Lemma rotas_vazias_lookup (σ : armazem) (caminhoes : list ref)
    (acc : gmap Z (list perna)) (k : Z) :
  fold_left (λ rotas cam, <[id (σ cam) := []]> rotas) caminhoes acc !! k =
  if bool_decide (k ∈ (λ cam, id (σ cam)) <$> caminhoes) then Some [] else acc !! k.
Proof.
  revert acc. induction caminhoes as [|cam caminhoes IH]; intros acc; [done|].
  rewrite fmap_cons. cbn [fold_left].
  rewrite IH. case_bool_decide as H1; case_bool_decide as H2; try done.
  - exfalso. apply H2. by right.
  - apply elem_of_cons in H2 as [->|H2]; [|done]. by rewrite lookup_insert_eq.
  - rewrite lookup_insert_ne; [done|]. intros <-. apply H2. left.
Qed.

Lemma rotas_vazias_chave (σ : armazem) (caminhoes : list ref) (cam : ref) :
  cam ∈ caminhoes → rotas_vazias σ caminhoes !! id (σ cam) = Some [].
Proof.
  intros Hcam. unfold rotas_vazias. rewrite rotas_vazias_lookup.
  rewrite bool_decide_true; [done|]. apply list_elem_of_fmap. by exists cam.
Qed.

Lemma total_pernas_zero (rotas : gmap Z (list perna)) :
  (∀ k l, rotas !! k = Some l → l = []) → total_pernas rotas = 0.
Proof.
  induction rotas as [|k l rotas Hk _ IH] using map_first_key_ind; intros H; [done|].
  rewrite total_pernas_insert by done.
  rewrite (H k l) by apply lookup_insert_eq. rewrite IH; [done|].
  intros k' l' Hk'. apply (H k'). rewrite lookup_insert_ne; [done|].
  intros <-. congruence.
Qed.

Lemma total_pernas_vazias (σ : armazem) (caminhoes : list ref) :
  total_pernas (rotas_vazias σ caminhoes) = 0.
Proof.
  apply total_pernas_zero. intros k l. unfold rotas_vazias.
  rewrite rotas_vazias_lookup. case_bool_decide; [by intros [= <-]|].
  by rewrite lookup_empty.
Qed.

Section Rotas.
Context (caminhoes : list ref) (centros : list string).
Context (buscar : string → string → num).

Local Abbreviation proc := (processar caminhoes centros buscar).
Local Abbreviation decs := (decisoes caminhoes centros buscar).

Local Abbreviation tem_chave := (rotas_tem_chave caminhoes).

Lemma passo_tem_chave (est : estado) (e : Entrega) :
  tem_chave est → tem_chave (passo caminhoes centros buscar est e).
Proof.
  intros H cam Hcam. unfold passo. rewrite aplicar_armazem, debitar_id.
  destruct (escolher (est_armazem est) e caminhoes centros buscar)
    as [[[cam' centro] d]|]; simpl; [|by apply H].
  apply lookup_alter_is_Some. by apply H.
Qed.

(** Each delivery adds one leg to [rotas] or one entry to [nao_alocadas]. *)
Lemma processar_total (es : list Entrega) (est : estado) :
  tem_chave est →
  total_pernas (est_rotas (proc es est)) + length (est_nao_alocadas (proc es est))
  = total_pernas (est_rotas est) + length (est_nao_alocadas est) + length es.
Proof.
  revert est. induction es as [|e es IH]; intros est Hest.
  { simpl. lia. }
  rewrite processar_cons, IH by by apply passo_tem_chave.
  unfold passo.
  destruct (escolher (est_armazem est) e caminhoes centros buscar)
    as [[[cam centro] d]|] eqn:Hm; simpl.
  - apply escolher_some in Hm as (Hcam & _).
    destruct (Hest cam Hcam) as [l Hl].
    rewrite (total_pernas_alter _ _ l) by done. lia.
  - rewrite length_app. simpl. lia.
Qed.

Lemma passo_ids_unicos (est : estado) (e : Entrega) :
  ids_unicos (est_armazem est) caminhoes →
  ids_unicos (est_armazem (passo caminhoes centros buscar est e)) caminhoes.
Proof.
  intros H c1 c2 H1 H2. unfold passo. rewrite aplicar_armazem, !debitar_id.
  by apply H.
Qed.

(** With unique identifiers, the route list of a truck is the legs of the
    deliveries assigned to it, in order. *)
Lemma processar_rotas (es : list Entrega) (est : estado) (cam : ref)
    (l : list perna) :
  ids_unicos (est_armazem est) caminhoes → cam ∈ caminhoes →
  est_rotas est !! id (est_armazem est cam) = Some l →
  est_rotas (proc es est) !! id (est_armazem est cam) =
  Some (l ++ pernas_de cam (decs es (est_armazem est))).
Proof.
  revert est l. induction es as [|e es IH]; intros est l Hids Hcam Hl.
  { simpl. by rewrite app_nil_r. }
  rewrite processar_cons.
  pose proof (passo_ids_unicos est e Hids) as Hids'.
  assert (id (est_armazem (passo caminhoes centros buscar est e) cam)
          = id (est_armazem est cam)) as Hid.
  { unfold passo. by rewrite aplicar_armazem, debitar_id. }
  rewrite <- Hid.
  assert (est_armazem (passo caminhoes centros buscar est e)
          = debitar (est_armazem est) e
              (escolher (est_armazem est) e caminhoes centros buscar)) as Harm.
  { unfold passo. by rewrite aplicar_armazem. }
  simpl decisoes. rewrite <- Harm.
  destruct (escolher (est_armazem est) e caminhoes centros buscar)
    as [[[cam' centro] d]|] eqn:Hm.
  - apply escolher_some in Hm as Hsel. destruct Hsel as (Hcam' & _).
    destruct (decide (cam' = cam)) as [->|Hne].
    + rewrite (IH _ (l ++ [(centro, destino e, d)])); [|done|done|].
      * unfold pernas_de. simpl. rewrite Nat.eqb_refl. by rewrite <- app_assoc.
      * rewrite Hid. unfold passo. rewrite Hm. simpl.
        by rewrite lookup_alter_eq, Hl.
    + rewrite (IH _ l); [|done|done|].
      * unfold pernas_de. simpl.
        by apply Nat.eqb_neq in Hne as ->.
      * rewrite Hid. unfold passo. rewrite Hm. simpl.
        rewrite lookup_alter_ne; [done|].
        intros Heq. apply Hne. by apply Hids.
  - rewrite (IH _ l); [done|done|done|].
    rewrite Hid. unfold passo. by rewrite Hm.
Qed.
End Rotas.

Lemma estado_inicial_tem_chave (σ : armazem) (caminhoes : list ref) :
  rotas_tem_chave caminhoes (estado_inicial σ caminhoes).
Proof.
  intros cam Hcam. simpl. rewrite rotas_vazias_chave by done. by eexists.
Qed.


(** ** Scaling leaves the store's objects alone *)

Lemma alocar_spec (h : memoria) (o : objeto) :
  h !! (alocar h o).2 = None ∧
  (alocar h o).1 = <[(alocar h o).2 := o]> h ∧
  h ⊆ (alocar h o).1.
Proof.
  unfold alocar. simpl.
  assert (h !! fresh (dom h) = None) as Hf.
  { apply not_elem_of_dom. apply is_fresh. }
  split; [done|]. split; [done|]. by apply insert_subseteq.
Qed.

Lemma ler_lista_mono (h h' : memoria) (l : nat) (adj : list (string * Q)) :
  h ⊆ h' → ler_lista h l = Some adj → ler_lista h' l = Some adj.
Proof.
  unfold ler_lista. intros Hsub H.
  destruct (h !! l) as [[]|] eqn:Hl; try done.
  by rewrite (lookup_weaken _ _ _ _ Hl Hsub).
Qed.

Lemma ler_linha_mono (h h' : memoria) (l : nat) (row : list num) :
  h ⊆ h' → ler_linha h l = Some row → ler_linha h' l = Some row.
Proof.
  unfold ler_linha. intros Hsub H.
  destruct (h !! l) as [[]|] eqn:Hl; try done.
  by rewrite (lookup_weaken _ _ _ _ Hl Hsub).
Qed.

Lemma ler_itens_cons (h : memoria) (centro : string) (l : nat)
    (itens : list (string * nat)) (vals : list (string * list (string * Q))) :
  ler_itens h ((centro, l) :: itens) = Some vals ↔
  ∃ adj vals', ler_lista h l = Some adj ∧ ler_itens h itens = Some vals' ∧
               vals = (centro, adj) :: vals'.
Proof.
  unfold ler_itens. simpl. split.
  - intros H. destruct (ler_lista h l) as [adj|]; simpl in H; [|done].
    destruct (mapM _ itens) as [vals'|]; simpl in H; [|done].
    injection H as <-. by exists adj, vals'.
  - intros (adj & vals' & -> & -> & ->). done.
Qed.

Lemma ler_itens_mono (h h' : memoria) (itens : list (string * nat))
    (vals : list (string * list (string * Q))) :
  h ⊆ h' → ler_itens h itens = Some vals → ler_itens h' itens = Some vals.
Proof.
  intros Hsub. revert vals. induction itens as [|[centro l] itens IH]; intros vals.
  { done. }
  rewrite !ler_itens_cons. intros (adj & vals' & H1 & H2 & ->).
  exists adj, vals'. split; [by eapply ler_lista_mono|]. split; [by apply IH|done].
Qed.

Lemma ler_linhas_cons (h : memoria) (l : nat) (linhas : list nat) (M : matriz_t) :
  mapM (ler_linha h) (l :: linhas) = Some M ↔
  ∃ row M', ler_linha h l = Some row ∧ mapM (ler_linha h) linhas = Some M' ∧
            M = row :: M'.
Proof.
  simpl. split.
  - intros H. destruct (ler_linha h l) as [row|]; simpl in H; [|done].
    destruct (mapM _ linhas) as [M'|]; simpl in H; [|done].
    injection H as <-. by exists row, M'.
  - intros (row & M' & -> & -> & ->). done.
Qed.

Lemma ler_linhas_mono (h h' : memoria) (linhas : list nat) (M : matriz_t) :
  h ⊆ h' → mapM (ler_linha h) linhas = Some M → mapM (ler_linha h') linhas = Some M.
Proof.
  intros Hsub. revert M. induction linhas as [|l linhas IH]; intros M; [done|].
  rewrite !ler_linhas_cons. intros (row & M' & H1 & H2 & ->).
  exists row, M'. split; [by eapply ler_linha_mono|]. split; [by apply IH|done].
Qed.

Lemma copiar_listas_spec (escala : Q) (itens : list (string * nat)) (h : memoria)
    (vals : list (string * list (string * Q))) :
  ler_itens h itens = Some vals →
  ∃ h2 r, copiar_listas h escala itens = Some (h2, r) ∧ h ⊆ h2 ∧
          ler_itens h2 r = Some (prod_map Datatypes.id (escalar_adj escala) <$> vals).
Proof.
  revert h vals. induction itens as [|[centro l] itens IH]; intros h vals.
  { intros [= <-]. by exists h, []. }
  intros (adj & vals' & H1 & H2 & ->)%ler_itens_cons.
  cbn [copiar_listas]. unfold ler_lista in H1.
  destruct (h !! l) as [[adj0| | |]|] eqn:Hl; try done. injection H1 as ->.
  destruct (alocar_spec h (OLista (escalar_adj escala adj))) as (Hfresh & Hh1 & Hsub).
  destruct (alocar h (OLista (escalar_adj escala adj))) as [h1 l'] eqn:Hal.
  simpl in Hfresh, Hh1, Hsub.
  destruct (IH h1 vals') as (h2 & r & -> & Hsub2 & Hr); [by eapply ler_itens_mono|].
  exists h2, ((centro, l') :: r). split; [done|]. split; [by etrans|].
  rewrite fmap_cons. apply ler_itens_cons.
  exists (escalar_adj escala adj), (prod_map Datatypes.id (escalar_adj escala) <$> vals').
  split; [|done]. apply (ler_lista_mono h1); [done|].
  unfold ler_lista. by rewrite Hh1, lookup_insert_eq.
Qed.

Lemma copiar_linhas_spec (escala : Q) (linhas : list nat) (h : memoria)
    (M : matriz_t) :
  mapM (ler_linha h) linhas = Some M →
  ∃ h2 r, copiar_linhas h escala linhas = Some (h2, r) ∧ h ⊆ h2 ∧
          mapM (ler_linha h2) r = Some (escalar_matriz M escala).
Proof.
  revert h M. induction linhas as [|l linhas IH]; intros h M.
  { intros [= <-]. by exists h, []. }
  intros (row & M' & H1 & H2 & ->)%ler_linhas_cons.
  cbn [copiar_linhas]. unfold ler_linha in H1.
  destruct (h !! l) as [[|row0| |]|] eqn:Hl; try done. injection H1 as ->.
  destruct (alocar_spec h (OLinha (escalar_celula escala <$> row)))
    as (Hfresh & Hh1 & Hsub).
  destruct (alocar h (OLinha (escalar_celula escala <$> row))) as [h1 l'] eqn:Hal.
  simpl in Hfresh, Hh1, Hsub.
  destruct (IH h1 M') as (h2 & r & -> & Hsub2 & Hr); [by eapply ler_linhas_mono|].
  exists h2, (l' :: r). split; [done|]. split; [by etrans|].
  unfold escalar_matriz. rewrite fmap_cons. apply ler_linhas_cons.
  exists (escalar_celula escala <$> row), (escalar_matriz M' escala).
  split; [|done]. apply (ler_linha_mono h1); [done|].
  unfold ler_linha. by rewrite Hh1, lookup_insert_eq.
Qed.

Lemma escalar_grafo_mem_spec (h : memoria) (grafo : nat) (G : grafo_t) (escala : Q) :
  ler_grafo h grafo = Some G →
  ∃ h' novo, escalar_grafo_mem h grafo escala = Some (h', novo) ∧
    h !! novo = None ∧
    (∀ l o, h !! l = Some o → h' !! l = Some o) ∧
    ler_grafo h' grafo = Some G ∧
    ler_grafo h' novo = Some (escalar_grafo G escala).
Proof.
  unfold ler_grafo, escalar_grafo_mem. intros HG.
  destruct (h !! grafo) as [[| |itens|]|] eqn:Hg; try done.
  destruct (ler_itens h itens) as [vals|] eqn:Hvals; [|done].
  injection HG as <-.
  destruct (copiar_listas_spec escala itens h vals Hvals)
    as (h1 & itens' & -> & Hsub & Hr).
  destruct (alocar_spec h1 (ODict itens')) as (Hfresh & Hh' & Hsub').
  destruct (alocar h1 (ODict itens')) as [h' novo] eqn:Hal.
  simpl in Hfresh, Hh', Hsub'.
  assert (h ⊆ h') as Hsub'' by by etrans.
  exists h', novo. split; [done|]. split; [|split; [|split]].
  - destruct (h !! novo) as [o|] eqn:Hn; [|done].
    by rewrite (lookup_weaken _ _ _ _ Hn Hsub) in Hfresh.
  - intros l o Hl. by eapply lookup_weaken.
  - rewrite (lookup_weaken _ _ _ _ Hg Hsub'').
    by rewrite (ler_itens_mono h h' itens vals).
  - rewrite Hh', lookup_insert_eq, <- Hh'.
    rewrite (ler_itens_mono h1 h' itens' _ Hsub' Hr). simpl.
    unfold escalar_grafo. by rewrite list_to_map_fmap.
Qed.

Lemma escalar_matriz_mem_spec (h : memoria) (matriz : nat) (M : matriz_t)
    (escala : Q) :
  ler_matriz h matriz = Some M →
  ∃ h' nova, escalar_matriz_mem h matriz escala = Some (h', nova) ∧
    h !! nova = None ∧
    (∀ l o, h !! l = Some o → h' !! l = Some o) ∧
    ler_matriz h' matriz = Some M ∧
    ler_matriz h' nova = Some (escalar_matriz M escala).
Proof.
  unfold ler_matriz, escalar_matriz_mem. intros HM.
  destruct (h !! matriz) as [[| | |linhas]|] eqn:Hm; try done.
  destruct (copiar_linhas_spec escala linhas h M HM)
    as (h1 & linhas' & -> & Hsub & Hr).
  destruct (alocar_spec h1 (OMatriz linhas')) as (Hfresh & Hh' & Hsub').
  destruct (alocar h1 (OMatriz linhas')) as [h' nova] eqn:Hal.
  simpl in Hfresh, Hh', Hsub'.
  assert (h ⊆ h') as Hsub'' by by etrans.
  exists h', nova. split; [done|]. split; [|split; [|split]].
  - destruct (h !! nova) as [o|] eqn:Hn; [|done].
    by rewrite (lookup_weaken _ _ _ _ Hn Hsub) in Hfresh.
  - intros l o Hl. by eapply lookup_weaken.
  - rewrite (lookup_weaken _ _ _ _ Hm Hsub''). by eapply ler_linhas_mono.
  - rewrite Hh', lookup_insert_eq, <- Hh'.
    apply (ler_linhas_mono h1 h' linhas' _ Hsub' Hr).
Qed.

(** ** Floating point: the sign of a difference *)
















(** ** The allocation engine in floating point *)

Section ExecucaoFlutuante.
Import Flutuante.
Context (caminhoes : list ref) (centros : list string).
Context (buscar : string → string → float).

Local Abbreviation proc := (processar caminhoes centros buscar).
Local Abbreviation decs := (decisoes caminhoes centros buscar).











End ExecucaoFlutuante.



(** ** Integer weights stay integer *)







(** * Properties of the specification *)

Lemma gerar_matriz_adjacencia_base :
  gerar_matriz_adjacencia = Ok (matriz_base, idx_base, nodes_base).
Proof. vm_compute. reflexivity. Qed.

(** C1.  On a graph whose weights are not negative (and, for the dense
    form, whose matrix is indexed consistently), each of the four functions
    returns, for every origin and target: the length of a shortest path
    from the origin to the target in the representation it queries when
    there is a path, and [inf] when there is none.  The sparse functions do
    so for any origin; the dense functions for any origin that has an index
    or equals the target.  For an origin without an index (and different
    from the target) the dense functions do not return: [idx[no]] raises
    [KeyError]. *)
Theorem dijkstra_menor_distancia (grafo : grafo_t) (matriz : matriz_t)
    (idx : gmap string nat) (nodes : list string) (origem destino : string) :
  grafo_nao_negativo grafo = true →
  matriz_indexada matriz idx nodes = true →
  matriz_nao_negativa matriz = true →
  (∃ r, dijkstra_lista_heap grafo origem destino = Some (Ok r) ∧
        resultado_correto (aresta_lista grafo) origem destino r) ∧
  (∃ r, dijkstra_lista_simples grafo origem destino = Some (Ok r) ∧
        resultado_correto (aresta_lista grafo) origem destino r) ∧
  (is_Some (idx !! origem) ∨ origem = destino →
   (∃ r, dijkstra_matriz_heap matriz idx nodes origem destino = Some (Ok r) ∧
         resultado_correto (aresta_matriz matriz idx nodes) origem destino r) ∧
   (∃ r, dijkstra_matriz_simples matriz idx nodes origem destino = Some (Ok r) ∧
         resultado_correto (aresta_matriz matriz idx nodes) origem destino r)) ∧
  (idx !! origem = None → origem ≠ destino →
   dijkstra_matriz_heap matriz idx nodes origem destino = Some (Exc KeyError) ∧
   dijkstra_matriz_simples matriz idx nodes origem destino = Some (Exc KeyError)).
Proof.
  intros Hg Hidx Hm.
  apply grafo_nao_negativo_ok in Hg.
  apply matriz_indexada_ok in Hidx.
  apply (matriz_nao_negativa_ok matriz idx nodes) in Hm.
  split; [by apply lista_heap_correta|].
  split; [by apply lista_simples_correta|].
  split; [|apply matriz_origem_desconhecida].
  intros Ho.
  split; [by apply matriz_heap_correta|by apply matriz_simples_correta].
Qed.

Lemma dijkstra_menor_distancia_witness :
  let o := "São Paulo" in
  let d := "Rio de Janeiro" in
  grafo_nao_negativo gerar_lista_adjacencia = true ∧
  matriz_indexada matriz_base idx_base nodes_base = true ∧
  matriz_nao_negativa matriz_base = true ∧
  (∃ r, dijkstra_lista_heap gerar_lista_adjacencia o d = Some (Ok r) ∧
        resultado_correto (aresta_lista gerar_lista_adjacencia) o d r) ∧
  (∃ r, dijkstra_lista_simples gerar_lista_adjacencia o d = Some (Ok r) ∧
        resultado_correto (aresta_lista gerar_lista_adjacencia) o d r) ∧
  (∃ r, dijkstra_matriz_heap matriz_base idx_base nodes_base o d = Some (Ok r) ∧
        resultado_correto (aresta_matriz matriz_base idx_base nodes_base) o d r) ∧
  (∃ r, dijkstra_matriz_simples matriz_base idx_base nodes_base o d = Some (Ok r) ∧
        resultado_correto (aresta_matriz matriz_base idx_base nodes_base) o d r).
Proof.
  intros o d.
  assert (grafo_nao_negativo gerar_lista_adjacencia = true) as H1
    by (vm_compute; reflexivity).
  assert (matriz_indexada matriz_base idx_base nodes_base = true) as H2
    by (vm_compute; reflexivity).
  assert (matriz_nao_negativa matriz_base = true) as H3
    by (vm_compute; reflexivity).
  assert (is_Some (idx_base !! o)) as H4
    by (exists 3; vm_compute; reflexivity).
  split; [exact H1|]. split; [exact H2|]. split; [exact H3|].
  destruct (dijkstra_menor_distancia gerar_lista_adjacencia matriz_base idx_base
              nodes_base o d H1 H2 H3) as (Ha & Hb & Hc & _).
  split; [exact Ha|]. split; [exact Hb|]. exact (Hc (or_introl H4)).
Defined.

(** C2.  On such graphs the heap-based and the linear-scan strategies
    return the same result over the same representation: equal numbers over
    the sparse form; over the dense form equal numbers, or the same
    [KeyError] when the origin has no index. *)
Theorem heap_e_simples_coincidem (grafo : grafo_t) (matriz : matriz_t)
    (idx : gmap string nat) (nodes : list string) (o d : string) :
  grafo_nao_negativo grafo = true →
  matriz_indexada matriz idx nodes = true →
  matriz_nao_negativa matriz = true →
  (∃ r1 r2, dijkstra_lista_heap grafo o d = Some r1 ∧
            dijkstra_lista_simples grafo o d = Some r2 ∧ res_eq r1 r2) ∧
  (∃ r1 r2, dijkstra_matriz_heap matriz idx nodes o d = Some r1 ∧
            dijkstra_matriz_simples matriz idx nodes o d = Some r2 ∧
            res_eq r1 r2).
Proof.
  intros Hg Hidx Hm.
  apply grafo_nao_negativo_ok in Hg.
  apply matriz_indexada_ok in Hidx.
  apply (matriz_nao_negativa_ok matriz idx nodes) in Hm.
  split.
  - destruct (lista_heap_correta grafo Hg o d) as (r1 & -> & H1).
    destruct (lista_simples_correta grafo Hg o d) as (r2 & -> & H2).
    exists (Ok r1), (Ok r2). split; [done|]. split; [done|].
    by eapply resultado_unico.
  - destruct (idx !! o) as [i|] eqn:Ho.
    + destruct (matriz_heap_correta matriz idx nodes Hidx Hm o d) as (r1 & -> & H1);
        [left; by rewrite Ho|].
      destruct (matriz_simples_correta matriz idx nodes Hidx Hm o d)
        as (r2 & -> & H2); [left; by rewrite Ho|].
      exists (Ok r1), (Ok r2). split; [done|]. split; [done|].
      by eapply resultado_unico.
    + destruct (decide (o = d)) as [Hod|Hod].
      * destruct (matriz_heap_correta matriz idx nodes Hidx Hm o d)
          as (r1 & -> & H1); [by right|].
        destruct (matriz_simples_correta matriz idx nodes Hidx Hm o d)
          as (r2 & -> & H2); [by right|].
        exists (Ok r1), (Ok r2). split; [done|]. split; [done|].
        by eapply resultado_unico.
      * destruct (matriz_origem_desconhecida matriz idx nodes o d Ho Hod)
          as [-> ->].
        by exists (Exc KeyError), (Exc KeyError).
Qed.

Lemma heap_e_simples_coincidem_witness :
  let o := "Recife" in
  let d := "Curitiba" in
  grafo_nao_negativo gerar_lista_adjacencia = true ∧
  matriz_indexada matriz_base idx_base nodes_base = true ∧
  matriz_nao_negativa matriz_base = true ∧
  (∃ r1 r2, dijkstra_lista_heap gerar_lista_adjacencia o d = Some r1 ∧
            dijkstra_lista_simples gerar_lista_adjacencia o d = Some r2 ∧
            res_eq r1 r2) ∧
  (∃ r1 r2, dijkstra_matriz_heap matriz_base idx_base nodes_base o d = Some r1 ∧
            dijkstra_matriz_simples matriz_base idx_base nodes_base o d = Some r2 ∧
            res_eq r1 r2).
Proof.
  intros o d.
  assert (grafo_nao_negativo gerar_lista_adjacencia = true) as H1
    by (vm_compute; reflexivity).
  assert (matriz_indexada matriz_base idx_base nodes_base = true) as H2
    by (vm_compute; reflexivity).
  assert (matriz_nao_negativa matriz_base = true) as H3
    by (vm_compute; reflexivity).
  split; [exact H1|]. split; [exact H2|]. split; [exact H3|].
  exact (heap_e_simples_coincidem gerar_lista_adjacencia matriz_base idx_base
           nodes_base o d H1 H2 H3).
Defined.

(** C3, as stated, fails: for the recorded pair (Recife, Curitiba) the
    sparse form answers 3150 (through Rio de Janeiro and São Paulo, over
    reverse edges) and the dense form answers 3400. *)
Lemma esparso_denso_contraexemplo :
  dijkstra_lista_heap gerar_lista_adjacencia "Recife" "Curitiba"
    = Some (Ok (Fin 3150)) ∧
  dijkstra_matriz_heap matriz_base idx_base nodes_base "Recife" "Curitiba"
    = Some (Ok (Fin 3400)) ∧
  ¬ (3150 == 3400)%Q.
Proof. split; [|split]; vm_compute; (reflexivity || discriminate). Qed.

(** C3, amended.  The sparse form is bidirectional and the dense form has
    only centre-to-destination cells.  For every recorded pair (centre,
    destination, distance): the dense strategies return the recorded
    distance forwards and [inf] backwards; the sparse strategies return, in
    both directions, one and the same finite distance, which is at most the
    recorded one, and equal to it except for the five listed pairs, where a
    route over reverse edges is shorter.  For (São Paulo, Rio de Janeiro)
    the sparse distance is 450 in both directions, the dense one 450
    forwards and [inf] backwards. *)
Theorem esparso_e_denso :
  gerar_matriz_adjacencia = Ok (matriz_base, idx_base, nodes_base) ∧
  Forall (λ '((c, d), v),
      dijkstra_matriz_heap matriz_base idx_base nodes_base c d = Some (Ok (Fin v)) ∧
      dijkstra_matriz_simples matriz_base idx_base nodes_base c d = Some (Ok (Fin v)) ∧
      dijkstra_matriz_heap matriz_base idx_base nodes_base d c = Some (Ok Inf) ∧
      dijkstra_matriz_simples matriz_base idx_base nodes_base d c = Some (Ok Inf) ∧
      dijkstra_lista_simples gerar_lista_adjacencia c d
        = dijkstra_lista_heap gerar_lista_adjacencia c d ∧
      dijkstra_lista_heap gerar_lista_adjacencia d c
        = dijkstra_lista_heap gerar_lista_adjacencia c d ∧
      dijkstra_lista_simples gerar_lista_adjacencia d c
        = dijkstra_lista_heap gerar_lista_adjacencia c d ∧
      ∃ s, dijkstra_lista_heap gerar_lista_adjacencia c d = Some (Ok (Fin s)) ∧
           (s <= v)%Q ∧
           (s = v ∨
            ((c, d), s) ∈ [ (("Belém", "Curitiba"), 3300%Q);
                            (("Belém", "Belo Horizonte"), 2950%Q);
                            (("Recife", "Porto Alegre"), 3170%Q);
                            (("Recife", "Curitiba"), 3150%Q);
                            (("Florianópolis", "Natal"), 3000%Q) ]))
    from_distancias ∧
  dijkstra_lista_heap gerar_lista_adjacencia "São Paulo" "Rio de Janeiro"
    = Some (Ok (Fin 450)) ∧
  dijkstra_lista_heap gerar_lista_adjacencia "Rio de Janeiro" "São Paulo"
    = Some (Ok (Fin 450)) ∧
  dijkstra_matriz_heap matriz_base idx_base nodes_base "São Paulo" "Rio de Janeiro"
    = Some (Ok (Fin 450)) ∧
  dijkstra_matriz_heap matriz_base idx_base nodes_base "Rio de Janeiro" "São Paulo"
    = Some (Ok Inf).
Proof.
  split; [apply gerar_matriz_adjacencia_base|].
  split; [|repeat split; vm_compute; reflexivity].
  unfold from_distancias.
  repeat (apply Forall_cons_2;
    [split; [vm_compute; reflexivity|];
     split; [vm_compute; reflexivity|];
     split; [vm_compute; reflexivity|];
     split; [vm_compute; reflexivity|];
     split; [vm_compute; reflexivity|];
     split; [vm_compute; reflexivity|];
     split; [vm_compute; reflexivity|];
     eexists; split; [vm_compute; reflexivity|];
     split; [vm_compute; discriminate|];
     first [left; reflexivity
           |right;
            repeat (first [apply list_elem_of_here|apply list_elem_of_further])]
    |]).
  apply Forall_nil_2.
Qed.





(** C6.  After a run of [planejar_rotas], with [ds] the record of what was
    selected for each delivery: the input deliveries are, up to order, the
    deliveries assigned to a truck followed by those assigned to none; the
    unallocated list is exactly the latter; each delivery assigned to a
    truck is assigned to one truck of the fleet and contributes one leg, so
    that the legs of all route lists and the unallocated deliveries together
    number as many as the input deliveries; and, identifiers being unique,
    the route list of a truck holds the legs of the deliveries assigned to
    that truck and of no other. *)
Theorem planejar_rotas_particao (entregas : list Entrega) (caminhoes : list ref)
    (centros : list string) (buscar : string → string → num) (σ : armazem) :
  let est := planejar_rotas entregas caminhoes centros buscar σ in
  let ds := decisoes caminhoes centros buscar (sorted_por_prazo entregas) σ in
  entregas ≡ₚ alocadas ds ++ recusadas ds ∧
  est_nao_alocadas est = recusadas ds ∧
  total_pernas (est_rotas est) = length (alocadas ds) ∧
  total_pernas (est_rotas est) + length (est_nao_alocadas est) = length entregas ∧
  (∀ e cam centro d, (e, Some (cam, centro, d)) ∈ ds → cam ∈ caminhoes) ∧
  (ids_unicos σ caminhoes →
   ∀ cam, cam ∈ caminhoes → est_rotas est !! id (σ cam) = Some (pernas_de cam ds)).
Proof.
  intros est ds.
  assert (entregas ≡ₚ alocadas ds ++ recusadas ds) as Hperm.
  { rewrite <- alocadas_recusadas. unfold ds.
    by rewrite decisoes_entregas, sorted_por_prazo_perm. }
  assert (est_nao_alocadas est = recusadas ds) as Hnao.
  { unfold est, planejar_rotas. by rewrite processar_nao_alocadas. }
  assert (total_pernas (est_rotas est) + length (est_nao_alocadas est)
          = length entregas) as Htot.
  { unfold est, planejar_rotas.
    rewrite processar_total by apply estado_inicial_tem_chave.
    simpl. rewrite total_pernas_vazias.
    by rewrite (Permutation_length (sorted_por_prazo_perm entregas)). }
  split; [done|]. split; [done|]. split; [|split; [done|split]].
  - apply Permutation_length in Hperm. rewrite length_app, <- Hnao in Hperm. lia.
  - intros e cam centro d. apply decisoes_caminhao.
  - intros Hids cam Hcam.
    apply (processar_rotas caminhoes centros buscar (sorted_por_prazo entregas)
             (estado_inicial σ caminhoes) cam []); [done|done|].
    by apply rotas_vazias_chave.
Qed.

(** The scenarios of the specification: a delivery whose travel time (2 h)
    exceeds its deadline (1 h) is allocated to no truck; of two deliveries
    competing for one truck the one with the earlier deadline gets it. *)
Example prazo_curto_nao_aloca :
  let e := {| destino := "D"; peso := 100; prazo := 1 |} in
  let est := planejar_rotas [e] [0] ["C"] (λ _ _, Fin 100) frota_exemplo in
  est_nao_alocadas est = [e] ∧ est_rotas est !! 7%Z = Some [].
Proof. split; vm_compute; reflexivity. Qed.

Example mais_urgente_primeiro :
  let est := planejar_rotas entregas_exemplo [0] centros_distribuicao
               buscar_principal frota_exemplo in
  est_rotas est !! 7%Z = Some [("São Paulo", "Curitiba", 400%Q)] ∧
  est_nao_alocadas est
    = [ {| destino := "Rio de Janeiro"; peso := 100; prazo := 20 |} ] ∧
  capacidade (est_armazem est 0) = 50%Z.
Proof. repeat split; vm_compute; reflexivity. Qed.

(** With a negative factor the scaled weights are negative and the result
    is not the factor times the unscaled one: in the graph a → t (1),
    a → c (5), c → t (1) the distance from a to t is 1; scaled by -1 the
    search first extracts (-5, c), then (-6, t), and returns -6, not -1. *)
Lemma escala_negativa :
  dijkstra_lista_heap grafo_tres "a" "t" = Some (Ok (Fin 1)) ∧
  dijkstra_lista_heap (escalar_grafo grafo_tres (-1)) "a" "t" = Some (Ok (Fin (-6))) ∧
  ¬ num_eq (Fin (-6)) (escalar_num (Fin 1) (-1)).
Proof.
  split; [vm_compute; reflexivity|]. split; [vm_compute; reflexivity|].
  simpl. intros H. lra.
Qed.




(** C8, as stated, fails for the linear-scan strategies: from the frontier
    [(1, "z"); (1, "b")] they extract [(1, "z")], although "b" < "z". *)
Lemma desempate_simples_contraexemplo : ¬ desempate_por_no chave_ltb.
Proof.
  intros H.
  specialize (H (1%Q, "z") [(1%Q, "b")] (1%Q, "b")).
  vm_compute in H. discriminate H.
  - right. left.
  - reflexivity.
Qed.

(** C8, amended.  The heap strategies extract with [heappop], which takes
    the least tuple: a tie on the distance is resolved by comparing the node
    identifiers.  The linear-scan strategies extract with
    [min(fila, key=lambda x: x[0])], which never compares identifiers: a tie
    is resolved by position, the first candidate of least distance wins. *)
Theorem desempate_na_fronteira :
  (∀ x l, ∃ r, heappop (x :: l) = Some (py_min tupla_ltb x l, r)) ∧
  desempate_por_no tupla_ltb ∧
  desempate_por_posicao chave_ltb.
Proof.
  split; [|split].
  - intros x l. destruct (extrair_spec tupla_ltb tupla_ordem x l) as (r & Hr & _).
    exists r. unfold heappop. by rewrite Hr.
  - intros x l y Hy Heq.
    destruct (py_min_split tupla_ltb tupla_ordem l x) as (l1 & l2 & Hl & H1 & H2).
    set (m := py_min tupla_ltb x l) in *.
    assert (∀ a b, String.ltb a b = true → String.leb a b = true) as Hlt.
    { intros a b. unfold String.ltb, String.leb. by destruct (String.compare a b). }
    rewrite Hl in Hy. apply elem_of_app in Hy as [Hy|Hy].
    + specialize (H1 y Hy). unfold tupla_ltb in H1.
      rewrite (Qeq_eq_bool m.1 y.1) in H1 by (by symmetry). by apply Hlt.
    + apply elem_of_cons in Hy as [->|Hy].
      * unfold String.leb. by rewrite string_compare_refl.
      * specialize (H2 y Hy). unfold tupla_ltb in H2.
        rewrite (Qeq_eq_bool y.1 m.1) in H2 by done.
        unfold String.ltb in H2. unfold String.leb.
        rewrite String.compare_antisym. by destruct (String.compare y.2 m.2).
  - intros x l.
    destruct (py_min_split chave_ltb chave_ordem l x) as (l1 & l2 & Hl & H1 & H2).
    exists l1, l2. split; [done|]. split.
    + intros y Hy. by apply Qltb_lt, H1.
    + intros y Hy. by apply Qltb_ge, H2.
Qed.

(** C9.  [escalar_grafo] and [escalar_matriz] build new objects and leave
    every object that existed before the call as it was; in particular the
    input graph or matrix reads the same afterwards.  The result is a new
    reference; in it every adjacency entry carries the input weight times
    the factor, every finite matrix cell the input cell times the factor,
    and every [inf] cell stays [inf]. *)
Theorem escalar_nao_altera_entrada (h : memoria) (grafo matriz : nat)
    (G : grafo_t) (M : matriz_t) (escala : Q) :
  ler_grafo h grafo = Some G →
  ler_matriz h matriz = Some M →
  (∃ h' novo, escalar_grafo_mem h grafo escala = Some (h', novo) ∧
     h !! novo = None ∧
     (∀ l o, h !! l = Some o → h' !! l = Some o) ∧
     ler_grafo h' grafo = Some G ∧
     ler_grafo h' novo = Some (escalar_grafo G escala)) ∧
  (∃ h' nova, escalar_matriz_mem h matriz escala = Some (h', nova) ∧
     h !! nova = None ∧
     (∀ l o, h !! l = Some o → h' !! l = Some o) ∧
     ler_matriz h' matriz = Some M ∧
     ler_matriz h' nova = Some (escalar_matriz M escala)) ∧
  (∀ u, escalar_grafo G escala !! u = escalar_adj escala <$> G !! u) ∧
  (∀ adj i, escalar_adj escala adj !! i =
            (λ '(dest, dist), (dest, (dist * escala)%Q)) <$> adj !! i) ∧
  (∀ i j, (escalar_matriz M escala !! i) ≫= (.!! j) =
          (λ c, match c with
                | Fin d => Fin (d * escala)%Q
                | Inf => Inf
                end) <$> ((M !! i) ≫= (.!! j))).
Proof.
  intros HG HM.
  split; [by apply escalar_grafo_mem_spec|].
  split; [by apply escalar_matriz_mem_spec|].
  split; [intros u; unfold escalar_grafo; apply lookup_fmap|].
  split; [intros adj i; unfold escalar_adj; apply list_lookup_fmap|].
  intros i j. unfold escalar_matriz. rewrite list_lookup_fmap.
  destruct (M !! i) as [row|]; simpl; [|done].
  by rewrite list_lookup_fmap.
Qed.

Lemma escalar_nao_altera_entrada_witness :
  let M := [[Inf; Fin 3]; [Inf; Inf]] in
  let escala := 0.5%Q in
  ler_grafo memoria_exemplo 2 = Some grafo_tres ∧
  ler_matriz memoria_exemplo 5 = Some M ∧
  (∃ h' novo, escalar_grafo_mem memoria_exemplo 2 escala = Some (h', novo) ∧
     memoria_exemplo !! novo = None ∧
     (∀ l o, memoria_exemplo !! l = Some o → h' !! l = Some o) ∧
     ler_grafo h' 2 = Some grafo_tres ∧
     ler_grafo h' novo = Some (escalar_grafo grafo_tres escala)) ∧
  (∃ h' nova, escalar_matriz_mem memoria_exemplo 5 escala = Some (h', nova) ∧
     memoria_exemplo !! nova = None ∧
     (∀ l o, memoria_exemplo !! l = Some o → h' !! l = Some o) ∧
     ler_matriz h' 5 = Some M ∧
     ler_matriz h' nova = Some (escalar_matriz M escala)) ∧
  (∀ u, escalar_grafo grafo_tres escala !! u
        = escalar_adj escala <$> grafo_tres !! u) ∧
  (∀ adj i, escalar_adj escala adj !! i =
            (λ '(dest, dist), (dest, (dist * escala)%Q)) <$> adj !! i) ∧
  (∀ i j, (escalar_matriz M escala !! i) ≫= (.!! j) =
          (λ c, match c with
                | Fin d => Fin (d * escala)%Q
                | Inf => Inf
                end) <$> ((M !! i) ≫= (.!! j))).
Proof.
  intros M escala.
  assert (ler_grafo memoria_exemplo 2 = Some grafo_tres) as H1
    by (vm_compute; reflexivity).
  assert (ler_matriz memoria_exemplo 5 = Some M) as H2
    by (vm_compute; reflexivity).
  split; [exact H1|]. split; [exact H2|].
  exact (escalar_nao_altera_entrada memoria_exemplo 2 5 grafo_tres M escala H1 H2).
Defined.

(** C10.  When the origin equals the target, each of the four functions
    returns 0: the target test comes first, before the visited test, the
    index lookup and the expansion.  Nothing is assumed of the graph, so
    the node may have no edges or not occur in it at all. *)
Theorem origem_igual_destino (grafo : grafo_t) (matriz : matriz_t)
    (idx : gmap string nat) (nodes : list string) (no : string) :
  dijkstra_lista_heap grafo no no = Some (Ok (Fin 0)) ∧
  dijkstra_lista_simples grafo no no = Some (Ok (Fin 0)) ∧
  dijkstra_matriz_heap matriz idx nodes no no = Some (Ok (Fin 0)) ∧
  dijkstra_matriz_simples matriz idx nodes no no = Some (Ok (Fin 0)).
Proof.
  unfold dijkstra_lista_heap, dijkstra_lista_simples, dijkstra_matriz_heap,
    dijkstra_matriz_simples, combustivel_lista, combustivel_matriz.
  rewrite lista_heap_busca, lista_simples_busca, matriz_heap_busca,
    matriz_simples_busca.
  cbn [Nat.add]. by rewrite !busca_mesmo_no.
Qed.
